(** * Zenix-Plugin-Whitelists: the whitelist bot of [src/Index.js]

    A shallow embedding of the read-modify-write layer of the Discord bot
    (the cache [whitelistCache]/[lastFetch], [fetchWhitelist],
    [updateWhitelist] and the mutating slash-command handlers), followed by
    the properties of the specification stated on that embedding.

    Conventions of the embedding.
    - A JavaScript string is the list of its UTF-16 code units ([jsstring]).
    - A whitelist id is a JavaScript number holding an integer; the
      handlers hold it as [Z], the integer that its digits denote.  This is
      the number of the code up to [MAX_SAFE_INTEGER] (2^53 - 1); beyond it
      [parseInt] rounds, and gives [Infinity] from about 1.8e308 on, which
      [JSON.stringify] writes as [null].  The numbers of the engine are
      described apart ([Value], [to_double], [add_stored]), and the
      statements about whole commands ask for safe integers ([in_range],
      [safe_store]).
    - The calls to Discord (replies, embeds, the log channel) are taken to
      succeed when the texts they carry are within the limits of an embed,
      which [in_range] asks of the id and the reason of a single command.
    - Objects that the code shares by reference (the document produced by
      [JSON.parse], held both by the cache entry and by the handler's local
      [whitelist]) live in an explicit [heap]; an in-place edit is a heap
      write, so every alias sees it.
    - [async] code is run one handler at a time; a remote call takes its
      latency and its possible failure from a [script] and is recorded in
      [calls]. *)

From Stdlib Require Import ZArith NArith Lia Bool Ascii String.
From stdpp Require Import base option list.

Local Open Scope Z_scope.

(** ** JavaScript strings and the id parser of the bulk commands *)

Definition jsstring : Type := list N.

(** A literal, code unit by code unit (ASCII literals only). *)
Definition js (s : string) : jsstring :=
  List.map N_of_ascii (list_ascii_of_string s).

(** [String.prototype.split(sep)] for a one-unit separator. *)
Fixpoint split (sep : N) (s : jsstring) : list jsstring :=
  match s with
  | [] => [[]]
  | c :: s' =>
      if N.eqb c sep then [] :: split sep s'
      else match split sep s' with
           | tok :: rest => (c :: tok) :: rest
           | [] => [[c]]
           end
  end.

(** White space and line terminators removed by [String.prototype.trim]. *)
Definition is_space (c : N) : bool :=
  (((9 <=? c) && (c <=? 13)) || (c =? 32) || (c =? 160) || (c =? 5760)
   || ((8192 <=? c) && (c <=? 8202)) || (c =? 8232) || (c =? 8233)
   || (c =? 8239) || (c =? 8287) || (c =? 12288) || (c =? 65279))%N.

Fixpoint trimStart (s : jsstring) : jsstring :=
  match s with
  | [] => []
  | c :: s' => if is_space c then trimStart s' else s
  end.

Definition trim (s : jsstring) : jsstring :=
  List.rev (trimStart (List.rev (trimStart s))).

(** [\d]: an ASCII decimal digit. *)
Definition is_digit (c : N) : bool := ((48 <=? c) && (c <=? 57))%N.

(** [/^\d+$/.test(s)]. *)
Definition test_digits (s : jsstring) : bool :=
  match s with
  | [] => false
  | _ => List.forallb is_digit s
  end.

(** [parseInt(s)] on a string of decimal digits (every call site of the
    source is guarded by [test_digits]). *)
Definition parseInt (s : jsstring) : Z :=
  List.fold_left (fun acc c => 10 * acc + (Z.of_N c - 48)) s 0.

(** [userIds.split(',').map(id => id.trim()).filter(id => /^\d+$/.test(id))
            .map(id => parseInt(id))] *)
Definition parse_ids (userIds : jsstring) : list Z :=
  List.map parseInt
    (List.filter test_digits (List.map trim (split 44%N userIds))).

(** ** Arrays of numbers *)

(** [Array.prototype.includes]. *)
Definition includes (l : list Z) (x : Z) : bool :=
  List.existsb (fun y => y =? x) l.

(** [Array.prototype.indexOf]: the first index holding [x], or [-1]. *)
Fixpoint indexOf (l : list Z) (x : Z) : Z :=
  match l with
  | [] => -1
  | y :: l' =>
      if y =? x then 0
      else let i := indexOf l' x in if i =? -1 then -1 else i + 1
  end.

(** [Array.prototype.push]. *)
Definition push (l : list Z) (x : Z) : list Z := l ++ [x].

(** [Array.prototype.splice(start, deleteCount)]: the array that remains.
    A negative [start] counts from the end, as in JavaScript. *)
Definition splice (l : list Z) (start deleteCount : Z) : list Z :=
  let len := Z.of_nat (length l) in
  let st := if start <? 0 then Z.max (len + start) 0 else Z.min start len in
  let dc := Z.min (Z.max deleteCount 0) (len - st) in
  List.firstn (Z.to_nat st) l ++ List.skipn (Z.to_nat (st + dc)) l.

(** ** Documents, cache entries, the remote file *)

(** The JSON document [{ "whitelist": [...], ...other fields }], taken
    well formed (its [whitelist] is an array of integers); the other
    fields are kept as they are. *)
Record Doc : Type := mkDoc {
  whitelist : list Z;
  others : list (string * string)
}.

Definition set_whitelist (d : Doc) (l : list Z) : Doc :=
  mkDoc l (others d).

Definition Sha : Type := N.

(** The object [{ data: whitelist, sha: data.sha }]; [data] is a reference
    to the parsed document. *)
Record Entry : Type := mkEntry {
  data : nat;
  sha : Sha
}.

(** Values that the code throws or catches. *)
Inductive Thrown : Type :=
| RequestError (status : Z)
| SyntaxError
| TypeError
| JsError (message : string).

(** Commit messages (the template literals of the handlers). *)
Inductive CommitMessage : Type :=
| MsgAdded (userId reason : jsstring)
| MsgRemoved (userId reason : jsstring)
| MsgBulkAdded (count : nat) (reason : jsstring)
| MsgBulkRemoved (count : nat) (reason : jsstring)
| MsgCleared (oldCount : nat).

(** Calls made to the remote store. *)
Inductive Call : Type :=
| GetContent
| PutContent (content : Doc) (revision : Sha) (message : CommitMessage).

Definition is_put (c : Call) : bool :=
  match c with PutContent _ _ _ => true | GetContent => false end.

(** Number of [createOrUpdateFileContents] calls in a log. *)
Definition commits (log : list Call) : nat :=
  length (List.filter is_put log).

(** Modelled from the spec: the remote file store (the GitHub contents API,
    which is not part of the repository): one file with its content and its
    current revision token. *)
Record Remote : Type := mkRemote {
  r_doc : Doc;
  r_sha : Sha
}.

(** ** Program state *)

Record State : Type := mkState {
  heap : list Doc;                        (* documents built by JSON.parse *)
  whitelistCache : option Entry;          (* let whitelistCache = null *)
  lastFetch : Z;                          (* let lastFetch = 0 *)
  clock : Z;                              (* Date.now() *)
  remote : Remote;
  script : list (N * option Thrown);      (* latency, failure of the next calls *)
  calls : list Call
}.

Definition CACHE_DURATION : Z := 60000.

Definition set_heap (h : list Doc) (s : State) : State :=
  mkState h (whitelistCache s) (lastFetch s) (clock s) (remote s) (script s) (calls s).
Definition set_cache (c : option Entry) (s : State) : State :=
  mkState (heap s) c (lastFetch s) (clock s) (remote s) (script s) (calls s).
Definition set_lastFetch (t : Z) (s : State) : State :=
  mkState (heap s) (whitelistCache s) t (clock s) (remote s) (script s) (calls s).
Definition at_time (t : Z) (s : State) : State :=
  mkState (heap s) (whitelistCache s) (lastFetch s) t (remote s) (script s) (calls s).
Definition set_remote (r : Remote) (s : State) : State :=
  mkState (heap s) (whitelistCache s) (lastFetch s) (clock s) r (script s) (calls s).

(** The state of a freshly started bot in front of a given remote file. *)
Definition boot (r : Remote) (t : Z) (sc : list (N * option Thrown)) : State :=
  mkState [] None 0 t r sc [].

(** ** A state and exception monad *)

Inductive Res (A : Type) : Type :=
| Val (a : A)
| Throw (e : Thrown).
Arguments Val {A} a.
Arguments Throw {A} e.

Definition M (A : Type) : Type := State -> Res A * State.

Definition ret {A} (a : A) : M A := fun s => (Val a, s).
Definition throw {A} (e : Thrown) : M A := fun s => (Throw e, s).
Definition bind {A B} (m : M A) (k : A -> M B) : M B :=
  fun s => match m s with
           | (Val a, s') => k a s'
           | (Throw e, s') => (Throw e, s')
           end.
Definition try_catch {A} (m : M A) (h : Thrown -> M A) : M A :=
  fun s => match m s with
           | (Val a, s') => (Val a, s')
           | (Throw e, s') => h e s'
           end.
Definition gets {A} (f : State -> A) : M A := fun s => (Val (f s), s).
Definition modify (f : State -> State) : M unit := fun s => (Val tt, f s).

Declare Scope js_scope.
Delimit Scope js_scope with js.
Notation "x <- m ;; k" := (bind m (fun x => k))
  (at level 100, m at next level, right associativity) : js_scope.
Notation "m ;;; k" := (bind m (fun _ => k))
  (at level 100, right associativity) : js_scope.
Local Open Scope js_scope.

(** Reading a document through a reference. *)
Definition deref (l : nat) : M Doc :=
  fun s => match heap s !! l with
           | Some d => (Val d, s)
           | None => (Throw TypeError, s)
           end.

(** Allocation of a new object. *)
Definition alloc (d : Doc) : M nat :=
  fun s => (Val (length (heap s)), set_heap (heap s ++ [d]) s).

(** In-place edit of the [whitelist] array of the document at [l]. *)
Definition edit_whitelist (l : nat) (f : list Z -> list Z) : M unit :=
  d <- deref l ;;
  modify (fun s => set_heap (<[l := set_whitelist d (f (whitelist d))]> (heap s)) s).

(** ** The remote store *)

(** The failure and the latency that the script holds for the next remote
    call (an exhausted script: no latency, no failure). *)
Definition next_fault (s : State) : option Thrown :=
  match script s with
  | (_, fault) :: _ => fault
  | [] => None
  end.

Definition next_latency (s : State) : Z :=
  match script s with
  | (dt, _) :: _ => Z.of_N dt
  | [] => 0
  end.

(** The state once the call [c] has been made. *)
Definition called (c : Call) (s : State) : State :=
  mkState (heap s) (whitelistCache s) (lastFetch s)
    (clock s + next_latency s) (remote s) (List.tl (script s)) (calls s ++ [c]).

(** A remote call: its latency elapses, it is logged, and it fails if the
    script says so. *)
Definition remote_call (c : Call) : M unit :=
  fun s =>
    match next_fault s with
    | Some e => (Throw e, called c s)
    | None => (Val tt, called c s)
    end.

(** [octokit.repos.getContent], followed by the decoding of its content. *)
Definition getContent : M (Doc * Sha) :=
  remote_call GetContent ;;;
  gets (fun s => (r_doc (remote s), r_sha (remote s))).

(** Modelled from the spec: the store accepts a write only when the
    revision sent with it is the current revision of the file (optimistic
    concurrency). *)
Definition accepts (r : Remote) (revision : Sha) : bool :=
  (revision =? r_sha r)%N.

(** Modelled from the spec: an accepted write replaces the content and
    gives the file a new revision. *)
Definition store (r : Remote) (content : Doc) : Remote :=
  mkRemote content (N.succ (r_sha r)).

(** [octokit.repos.createOrUpdateFileContents]; a refused write is the
    error 409 of the API. *)
Definition createOrUpdateFileContents
    (content : Doc) (revision : Sha) (message : CommitMessage) : M unit :=
  remote_call (PutContent content revision message) ;;;
  r <- gets remote ;;
  if accepts r revision
  then modify (set_remote (store r content))
  else throw (RequestError 409).

(** A commit made by somebody else (an edit outside the bot). *)
Definition external_commit (content : Doc) (s : State) : State :=
  set_remote (store (remote s) content) s.

(** ** The cache: [fetchWhitelist], [updateWhitelist] *)

Definition fetch_failed : Thrown :=
  JsError "Failed to fetch whitelist from GitHub".
Definition update_failed : Thrown :=
  JsError "Failed to update whitelist on GitHub".

(** The [try] block of [fetchWhitelist]. *)
Definition refetch (now : Z) : M Entry :=
  try_catch
    (response <- getContent ;;
     l <- alloc (fst response) ;;
     let e := mkEntry l (snd response) in
     modify (fun s => set_lastFetch now (set_cache (Some e) s)) ;;;
     ret e)
    (fun _ => throw fetch_failed).

Definition fetchWhitelist : M Entry :=
  now <- gets clock ;;
  cache <- gets whitelistCache ;;
  last <- gets lastFetch ;;
  match cache with
  | Some e => if now - last <? CACHE_DURATION then ret e else refetch now
  | None => refetch now
  end.

(** The statement [whitelistCache = null]. *)
Definition invalidate : M unit := modify (set_cache None).

(** [newWhitelist] is the reference to the document to write. *)
Definition updateWhitelist (newWhitelist : nat) (message : CommitMessage) : M bool :=
  try_catch
    (currentData <- fetchWhitelist ;;
     content <- deref newWhitelist ;;
     createOrUpdateFileContents content (sha currentData) message ;;;
     invalidate ;;;
     ret true)
    (fun _ => throw update_failed).

(** ** The slash-command handlers

    Each mutating handler is written as its mutation step (the list is
    fetched and edited in place) followed by the commit and the answer. *)

(** [interaction.options.getString('reason') || dflt]: an absent or empty
    reason gives the default. *)
Definition or_default (o : option jsstring) (dflt : string) : jsstring :=
  match o with
  | Some (c :: r) => c :: r
  | _ => js dflt
  end.

(** What the bot finally answers to a command. *)
Inductive Reply : Type :=
| NoPermission
| InvalidUserId
| AlreadyWhitelisted (userId : jsstring)
| UserAdded (userId reason : jsstring)
| NotInWhitelist (userId : jsstring)
| UserRemoved (userId reason : jsstring)
| CheckResult (userId : jsstring) (isWhitelisted : bool)
| NoValidIds
| BulkAddResults (newlyAdded alreadyWhitelisted : list Z)
| BulkRemoveResults (removed notInWhitelist : list Z)
| ClearCancelled
| WhitelistCleared (oldCount : nat)
| UnhandledRejection (e : Thrown)      (* logged on the console, no answer *)
| ErrorEmbed (message : string).

(** [logAction] posts an embed to the log channel and catches its own
    failures; it touches neither the cache nor the remote file. *)
Definition logAction : M unit := ret tt.

(** case 'add', lines 241-247: fetch, membership test, [push].  The result
    is the reference [whitelist.data] when the id was pushed. *)
Definition add_mutation (id : Z) : M (option nat) :=
  wl <- fetchWhitelist ;;
  d <- deref (data wl) ;;
  if includes (whitelist d) id then ret None
  else
    edit_whitelist (data wl) (fun a => push a id) ;;;
    ret (Some (data wl)).

(** case 'add' *)
Definition cmd_add (userId : jsstring) (reason0 : option jsstring) : M Reply :=
  let reason := or_default reason0 "No reason provided" in
  if negb (test_digits userId) then ret InvalidUserId
  else
    m <- add_mutation (parseInt userId) ;;
    match m with
    | None => ret (AlreadyWhitelisted userId)
    | Some newWhitelist =>
        updateWhitelist newWhitelist (MsgAdded userId reason) ;;;
        logAction ;;;
        ret (UserAdded userId reason)
    end.

(** case 'remove', lines 276-284: fetch, [indexOf], [splice(index, 1)]. *)
Definition remove_mutation (userIdInt : Z) : M (option nat) :=
  wl <- fetchWhitelist ;;
  d <- deref (data wl) ;;
  let index := indexOf (whitelist d) userIdInt in
  if index =? -1 then ret None
  else
    edit_whitelist (data wl) (fun a => splice a index 1) ;;;
    ret (Some (data wl)).

(** case 'remove' *)
Definition cmd_remove (userId : jsstring) (reason0 : option jsstring) : M Reply :=
  let reason := or_default reason0 "No reason provided" in
  if negb (test_digits userId) then ret InvalidUserId
  else
    m <- remove_mutation (parseInt userId) ;;
    match m with
    | None => ret (NotInWhitelist userId)
    | Some newWhitelist =>
        updateWhitelist newWhitelist (MsgRemoved userId reason) ;;;
        logAction ;;;
        ret (UserRemoved userId reason)
    end.

(** case 'check' *)
Definition cmd_check (userId : jsstring) : M Reply :=
  if negb (test_digits userId) then ret InvalidUserId
  else
    wl <- fetchWhitelist ;;
    d <- deref (data wl) ;;
    ret (CheckResult userId (includes (whitelist d) (parseInt userId))).

(** The [for (const id of idsToAdd)] loop of 'bulk-add', on the document
    at [l]; the result is [(alreadyWhitelisted, newlyAdded)]. *)
Fixpoint bulk_add_loop (l : nat) (idsToAdd alreadyWhitelisted newlyAdded : list Z)
  : M (list Z * list Z) :=
  match idsToAdd with
  | [] => ret (alreadyWhitelisted, newlyAdded)
  | id :: ids =>
      d <- deref l ;;
      if includes (whitelist d) id
      then bulk_add_loop l ids (push alreadyWhitelisted id) newlyAdded
      else
        edit_whitelist l (fun a => push a id) ;;;
        bulk_add_loop l ids alreadyWhitelisted (push newlyAdded id)
  end.

(** case 'bulk-add', lines 385-396. *)
Definition bulk_add_mutation (idsToAdd : list Z) : M (nat * (list Z * list Z)) :=
  wl <- fetchWhitelist ;;
  r <- bulk_add_loop (data wl) idsToAdd [] [] ;;
  ret (data wl, r).

(** case 'bulk-add' *)
Definition cmd_bulk_add (userIds : jsstring) (reason0 : option jsstring) : M Reply :=
  let reason := or_default reason0 "Bulk add - No reason provided" in
  let idsToAdd := parse_ids userIds in
  if (length idsToAdd =? 0)%nat then ret NoValidIds
  else
    m <- bulk_add_mutation idsToAdd ;;
    let alreadyWhitelisted := fst (snd m) in
    let newlyAdded := snd (snd m) in
    (if (0 <? length newlyAdded)%nat
     then updateWhitelist (fst m) (MsgBulkAdded (length newlyAdded) reason) ;;;
          logAction
     else ret tt) ;;;
    ret (BulkAddResults newlyAdded alreadyWhitelisted).

(** The [for (const id of idsToRemove)] loop of 'bulk-remove'; the result
    is [(notInWhitelist, removed)]. *)
Fixpoint bulk_remove_loop (l : nat) (idsToRemove notInWhitelist removed : list Z)
  : M (list Z * list Z) :=
  match idsToRemove with
  | [] => ret (notInWhitelist, removed)
  | id :: ids =>
      d <- deref l ;;
      let index := indexOf (whitelist d) id in
      if index =? -1
      then bulk_remove_loop l ids (push notInWhitelist id) removed
      else
        edit_whitelist l (fun a => splice a index 1) ;;;
        bulk_remove_loop l ids notInWhitelist (push removed id)
  end.

(** case 'bulk-remove', lines 438-450. *)
Definition bulk_remove_mutation (idsToRemove : list Z) : M (nat * (list Z * list Z)) :=
  wl <- fetchWhitelist ;;
  r <- bulk_remove_loop (data wl) idsToRemove [] [] ;;
  ret (data wl, r).

(** case 'bulk-remove' *)
Definition cmd_bulk_remove (userIds : jsstring) (reason0 : option jsstring) : M Reply :=
  let reason := or_default reason0 "Bulk remove - No reason provided" in
  let idsToRemove := parse_ids userIds in
  if (length idsToRemove =? 0)%nat then ret NoValidIds
  else
    m <- bulk_remove_mutation idsToRemove ;;
    let notInWhitelist := fst (snd m) in
    let removed := snd (snd m) in
    (if (0 <? length removed)%nat
     then updateWhitelist (fst m) (MsgBulkRemoved (length removed) reason) ;;;
          logAction
     else ret tt) ;;;
    ret (BulkRemoveResults removed notInWhitelist).

(** A chat message seen by the collector of 'clear': its author, its text
    and the time, in milliseconds, since the collector was created. *)
Record Message : Type := mkMessage {
  author : N;
  content : jsstring;
  arrival : Z
}.

Fixpoint jsstring_eqb (a b : jsstring) : bool :=
  match a, b with
  | [], [] => true
  | x :: a', y :: b' => N.eqb x y && jsstring_eqb a' b'
  | _, _ => false
  end.

(** [m => m.author.id === interaction.user.id && m.content === 'CONFIRM'] *)
Definition confirm_filter (user : N) (m : Message) : bool :=
  N.eqb (author m) user && jsstring_eqb (content m) (js "CONFIRM").

(** [createMessageCollector({ filter, time, max: 1 })] of discord.js: the
    first message that passes the filter before the timer of [time]
    milliseconds ends the collector, if there is one. *)
Definition createMessageCollector
    (filter : Message -> bool) (time : Z) (messages : list Message)
  : option Message :=
  List.find (fun m => filter m && (arrival m <? time)) messages.

(** The ['collect'] callback of 'clear', lines 497-500: fetch, count,
    replace the list by the empty one. *)
Definition clear_mutation : M (nat * nat) :=
  wl <- fetchWhitelist ;;
  d <- deref (data wl) ;;
  let oldCount := length (whitelist d) in
  edit_whitelist (data wl) (fun _ => []) ;;;
  ret (data wl, oldCount).

(** The ['collect'] callback of 'clear'. *)
Definition on_collect : M Reply :=
  m <- clear_mutation ;;
  updateWhitelist (fst m) (MsgCleared (snd m)) ;;;
  logAction ;;;
  ret (WhitelistCleared (snd m)).

(** case 'clear': the confirmation prompt, then the collector.  The
    callback runs outside the [try] of the dispatcher: what it throws is
    an unhandled rejection. *)
Definition cmd_clear (user : N) (messages : list Message) : M Reply :=
  match createMessageCollector (confirm_filter user) 30000 messages with
  | Some m =>
      modify (fun s => at_time (clock s + arrival m) s) ;;;
      try_catch on_collect (fun e => ret (UnhandledRejection e))
  | None => ret ClearCancelled
  end.

Inductive Command : Type :=
| Add (userid : jsstring) (reason : option jsstring)
| Remove (userid : jsstring) (reason : option jsstring)
| Check (userid : jsstring)
| BulkAdd (userids : jsstring) (reason : option jsstring)
| BulkRemove (userids : jsstring) (reason : option jsstring)
| Clear (user : N) (messages : list Message).

Definition handle (c : Command) : M Reply :=
  match c with
  | Add u r => cmd_add u r
  | Remove u r => cmd_remove u r
  | Check u => cmd_check u
  | BulkAdd us r => cmd_bulk_add us r
  | BulkRemove us r => cmd_bulk_remove us r
  | Clear user ms => cmd_clear user ms
  end.

(** [error.message] *)
Definition message_of (e : Thrown) : string :=
  match e with
  | JsError m => m
  | RequestError _ => "RequestError"
  | SyntaxError => "SyntaxError"
  | TypeError => "TypeError"
  end.

(** [client.on('interactionCreate', ...)] for the [whitelist] command:
    the permission gate, then the handler inside [try]/[catch]. *)
Definition interactionCreate (isAdmin : bool) (c : Command) : M Reply :=
  if negb isAdmin then ret NoPermission
  else try_catch (handle c) (fun e => ret (ErrorEmbed (message_of e))).

(** ** Reading a reply as a mutation result *)

(** Ids that the command applied. *)
Definition applied (r : Reply) : list Z :=
  match r with
  | UserAdded u _ | UserRemoved u _ => [parseInt u]
  | BulkAddResults a _ | BulkRemoveResults a _ => a
  | _ => []
  end.

(** Ids that the command skipped. *)
Definition skipped (r : Reply) : list Z :=
  match r with
  | AlreadyWhitelisted u | NotInWhitelist u => [parseInt u]
  | BulkAddResults _ k | BulkRemoveResults _ k => k
  | _ => []
  end.

(** Number of changes a command made to the list. *)
Definition changes (r : Reply) : nat :=
  match r with
  | WhitelistCleared n => n
  | _ => length (applied r)
  end.

(** The document held by the cache, if any. *)
Definition cached_doc (s : State) : option Doc :=
  match whitelistCache s with
  | Some e => heap s !! data e
  | None => None
  end.

(** ** The mutations as the specification words them *)

(** Add: nothing if the id is present, else the id is appended. *)
Definition spec_add (id : Z) (w : list Z) : list Z :=
  if includes w id then w else w ++ [id].

(** Remove: the first occurrence of the id is taken out. *)
Fixpoint spec_remove (id : Z) (w : list Z) : list Z :=
  match w with
  | [] => []
  | y :: w' => if y =? id then w' else y :: spec_remove id w'
  end.

(** BulkAdd: the ids in the given order, each with the semantics of Add on
    the list as the earlier ids left it; the result is the new list, the
    applied ids and the skipped ids. *)
Fixpoint spec_bulk_add (ids : list Z) (w : list Z) : list Z * list Z * list Z :=
  match ids with
  | [] => (w, [], [])
  | id :: ids' =>
      let '(w', a, k) := spec_bulk_add ids' (spec_add id w) in
      if includes w id then (w', a, id :: k) else (w', id :: a, k)
  end.

(** BulkRemove: the same with the semantics of Remove. *)
Fixpoint spec_bulk_remove (ids : list Z) (w : list Z) : list Z * list Z * list Z :=
  match ids with
  | [] => (w, [], [])
  | id :: ids' =>
      let '(w', a, k) := spec_bulk_remove ids' (spec_remove id w) in
      if includes w id then (w', id :: a, k) else (w', a, id :: k)
  end.

(** ** States reached by the cache operations *)

(** Is the cache entry present and younger than [CACHE_DURATION]? *)
Definition is_fresh (s : State) : bool :=
  match whitelistCache s with
  | Some _ => clock s - lastFetch s <? CACHE_DURATION
  | None => false
  end.

(** The entry that a fetch at state [s] creates. *)
Definition new_entry (s : State) : Entry :=
  mkEntry (length (heap s)) (r_sha (remote s)).

(** The state after a fetch that went to the store and succeeded. *)
Definition refetched (s : State) : State :=
  mkState (heap s ++ [r_doc (remote s)]) (Some (new_entry s)) (clock s)
    (clock s + next_latency s) (remote s) (List.tl (script s))
    (calls s ++ [GetContent]).

(** The state after a write that the store accepted. *)
Definition committed (d : Doc) (rev : Sha) (message : CommitMessage) (s : State) : State :=
  mkState (heap s) None (lastFetch s) (clock s + next_latency s)
    (mkRemote d (N.succ (r_sha (remote s)))) (List.tl (script s))
    (calls s ++ [PutContent d rev message]).

(** Every cache entry refers to an allocated document. *)
Definition wf (s : State) : Prop :=
  forall e, whitelistCache s = Some e -> (data e < length (heap s))%nat.

(** No remote call of the script fails. *)
Definition no_faults (s : State) : Prop :=
  List.Forall (fun x => snd x = None) (script s).

(** The cache entry, when there is one, mirrors the remote file. *)
Definition coherent (s : State) : Prop :=
  forall e, whitelistCache s = Some e ->
    sha e = r_sha (remote s) /\ heap s !! data e = Some (r_doc (remote s)).

(** A fetch at state [s] goes to the store: the call is made, and when it
    succeeds its result becomes the cache entry, dated [clock s]. *)
Definition refetches (s : State) : Prop :=
  exists r s',
    fetchWhitelist s = (r, s') /\
    calls s' = calls s ++ [GetContent] /\
    (next_fault s = None ->
       r = Val (new_entry s) /\
       whitelistCache s' = Some (new_entry s) /\
       lastFetch s' = clock s /\
       cached_doc s' = Some (r_doc (remote s))).

(** The same state with another script of remote outcomes. *)
Definition set_script (sc : list (N * option Thrown)) (s : State) : State :=
  mkState (heap s) (whitelistCache s) (lastFetch s) (clock s) (remote s) sc (calls s).

(** Sample documents and states. *)
Definition doc123 : Doc := mkDoc [1; 2; 3] [("plugin"%string, "MeshLab"%string)].
Definition remote123 : Remote := mkRemote doc123 7%N.

(** The state in which the document at [l], which was [d], holds the list
    [w]. *)
Definition edited (l : nat) (d : Doc) (w : list Z) (s : State) : State :=
  set_heap (<[l := set_whitelist d w]> (heap s)) s.

(** Same remote file and same number of commits. *)
Definition quiet (s s' : State) : Prop :=
  commits (calls s') = commits (calls s) /\ remote s' = remote s.

(** The action [m] neither commits nor changes the remote file. *)
Definition makes_no_commit {A} (m : M A) : Prop :=
  forall s r s', m s = (r, s') -> quiet s s'.

(** The revision held by the cache entry, when there is one, is the
    current revision of the remote file. *)
Definition sha_ok (s : State) : Prop :=
  forall e, whitelistCache s = Some e -> sha e = r_sha (remote s).

(** A message that confirms the 'clear' of [user] in time. *)
Definition confirms (user : N) (m : Message) : Prop :=
  author m = user /\ content m = js "CONFIRM" /\ arrival m < 30000.

(** ** The read-only handlers *)

(** [Array.prototype.slice(start, end)]; negative indices count from the
    end, as in JavaScript. *)
Definition slice (l : list Z) (start stop : Z) : list Z :=
  let len := Z.of_nat (length l) in
  let k := if start <? 0 then Z.max (len + start) 0 else Z.min start len in
  let final := if stop <? 0 then Z.max (len + stop) 0 else Z.min stop len in
  List.firstn (Z.to_nat (final - k)) (List.skipn (Z.to_nat k) l).

(** [for (let i = 0; i < userIds.length; i += 20)
       chunks.push(userIds.slice(i, i + 20))], from the index [i] on; the
    loop runs at most [fuel] times. *)
Fixpoint chunk_loop (fuel : nat) (userIds : list Z) (i : Z) (chunks : list (list Z))
  : list (list Z) :=
  match fuel with
  | O => chunks
  | S fuel' =>
      if i <? Z.of_nat (length userIds)
      then chunk_loop fuel' userIds (i + 20) (chunks ++ [slice userIds i (i + 20)])
      else chunks
  end.

(** The chunks of 'list'; the index grows by 20 at each turn, so that
    [length userIds] turns are enough. *)
Definition chunks_of (userIds : list Z) : list (list Z) :=
  chunk_loop (length userIds) userIds 0 [].

(** [Array.prototype.map((x, index) => ...)]. *)
Fixpoint mapi_from {A B} (f : nat -> A -> B) (index : nat) (l : list A) : list B :=
  match l with
  | [] => []
  | x :: l' => f index x :: mapi_from f (S index) l'
  end.

(** One embed of 'list': the title "Page number/pages", the ids of the
    description and the total of the footer. *)
Record Page : Type := mkPage {
  page_number : nat;
  page_count : nat;
  page_ids : list Z;
  page_total : nat
}.

(** [timestamp.replace(/[:.]/g, '-')] *)
Definition replace_colon_dot (s : jsstring) : jsstring :=
  List.map (fun c => if ((c =? 58) || (c =? 46))%N then 45%N else c) s.

(** What the bot answers to the read-only commands 'list', 'count' and
    'backup' ('check' answers a [Reply]). *)
Inductive ReadReply : Type :=
| ListEmpty
| ListPages (embeds : list Page)
| CountIs (count : nat)
| BackupFile (name : jsstring) (attachment : Doc) (count : nat).

(** case 'list' *)
Definition cmd_list : M ReadReply :=
  wl <- fetchWhitelist ;;
  d <- deref (data wl) ;;
  let userIds := whitelist d in
  if (length userIds =? 0)%nat then ret ListEmpty
  else
    let chunks := chunks_of userIds in
    ret (ListPages
           (mapi_from (fun index chunk =>
                         mkPage (index + 1) (length chunks) chunk (length userIds))
                      0 chunks)).

(** case 'count' *)
Definition cmd_count : M ReadReply :=
  wl <- fetchWhitelist ;;
  d <- deref (data wl) ;;
  ret (CountIs (length (whitelist d))).

(** case 'backup'; [iso] is [new Date().toISOString()]. *)
Definition cmd_backup (iso : jsstring) : M ReadReply :=
  wl <- fetchWhitelist ;;
  d <- deref (data wl) ;;
  let filename :=
    js "meshlab-whitelist-backup-" ++ replace_colon_dot iso ++ js ".json" in
  ret (BackupFile filename d (length (whitelist d))).

(** ** Numbers as text: the fields of the bulk answers *)

(** The decimal digits of a non-negative integer, on at most [fuel]
    digits. *)
Fixpoint digits (fuel : nat) (n : Z) : jsstring :=
  match fuel with
  | O => []
  | S fuel' =>
      (if n <? 10 then [] else digits fuel' (n / 10)) ++ [Z.to_N (48 + n mod 10)]
  end.

(** [Number.prototype.toString] on a safe integer, of which JavaScript
    writes all the digits. *)
Definition toString (n : Z) : jsstring :=
  if n <? 0 then 45%N :: digits (S (Z.to_nat (Z.log2 (- n)))) (- n)
  else digits (S (Z.to_nat (Z.log2 n))) n.

(** [Array.prototype.join(sep)] on strings. *)
Fixpoint join (sep : jsstring) (l : list jsstring) : jsstring :=
  match l with
  | [] => []
  | [x] => x
  | x :: l' => x ++ sep ++ join sep l'
  end.

(** [String.prototype.substring(0, stop)] for [0 <= stop]. *)
Definition substring0 (s : jsstring) (stop : nat) : jsstring := List.firstn stop s.

(** [ids.join(', ').substring(0, 1024) || 'None']: the value of a field of
    the bulk answers. *)
Definition field_value (ids : list Z) : jsstring :=
  match substring0 (join (js ", ") (List.map toString ids)) 1024 with
  | [] => js "None"
  | v => v
  end.

(** ** Specifications of whole commands *)

(** The list that a command is meant to leave in the store, from the list
    [w] that it found there. *)
Definition spec_result (c : Command) (w : list Z) : list Z :=
  match c with
  | Add u _ => if test_digits u then spec_add (parseInt u) w else w
  | Remove u _ => if test_digits u then spec_remove (parseInt u) w else w
  | Check _ => w
  | BulkAdd us _ => fst (fst (spec_bulk_add (parse_ids us) w))
  | BulkRemove us _ => fst (fst (spec_bulk_remove (parse_ids us) w))
  | Clear user messages =>
      match createMessageCollector (confirm_filter user) 30000 messages with
      | Some _ => []
      | None => w
      end
  end.

(** Every document of [s] is still there, unchanged, in [s']. *)
Definition docs_kept (s s' : State) : Prop :=
  forall l d, heap s !! l = Some d -> heap s' !! l = Some d.

(** The action [m] relates the state it starts from to the state it ends
    in by [R], whatever its outcome. *)
Definition frames {A} (R : State -> State -> Prop) (m : M A) : Prop :=
  forall s r s', m s = (r, s') -> R s s'.

(** Nothing is written: no commit, same remote file, same documents. *)
Definition read_only (s s' : State) : Prop :=
  quiet s s' /\ docs_kept s s'.

(** A series of commands, handled one after the other. *)
Fixpoint run_all (cs : list Command) (s : State) : State :=
  match cs with
  | [] => s
  | c :: cs' => run_all cs' (snd (handle c s))
  end.

(** ** Numbers as the engine has them

    The handlers above hold ids as mathematical integers.  The code holds
    them as double-precision numbers: [parseInt] gives the double nearest to
    the integer that the digits denote, and [Infinity] when that integer is
    beyond the largest double; [JSON.stringify] writes a number that is not
    finite as [null].  The two views agree on the integers up to
    [MAX_SAFE_INTEGER]. *)



(** [Number.MAX_SAFE_INTEGER], 2^53 - 1. *)
Definition MAX_SAFE_INTEGER : Z := 9007199254740991.










(** ** The inputs on which the two views of numbers agree *)

(** [Number.isSafeInteger]. *)
Definition safe (n : Z) : Prop := - MAX_SAFE_INTEGER <= n <= MAX_SAFE_INTEGER.

(** A natural number that is a safe integer. *)
Definition safe_id (n : Z) : Prop := 0 <= n <= MAX_SAFE_INTEGER.

(** The array of the file holds safe integers. *)
Definition safe_store (s : State) : Prop :=
  List.Forall safe (whitelist (r_doc (remote s))).

(** A text that the embed builder accepts as the value of a field: at most
    1024 code units. *)
Definition fits_field (s : jsstring) : Prop := (length s <= 1024)%nat.

(** The commands whose ids are safe integers and whose answers can be
    built: the single commands show the id and the reason in fields of the
    embed. *)
Definition in_range (c : Command) : Prop :=
  match c with
  | Add u r =>
      fits_field u /\ fits_field (or_default r "No reason provided") /\
      (test_digits u = true -> parseInt u <= MAX_SAFE_INTEGER)
  | Remove u r =>
      fits_field u /\ fits_field (or_default r "No reason provided") /\
      (test_digits u = true -> parseInt u <= MAX_SAFE_INTEGER)
  | Check u =>
      fits_field u /\ (test_digits u = true -> parseInt u <= MAX_SAFE_INTEGER)
  | BulkAdd us _ => List.Forall (fun n => n <= MAX_SAFE_INTEGER) (parse_ids us)
  | BulkRemove us _ => List.Forall (fun n => n <= MAX_SAFE_INTEGER) (parse_ids us)
  | Clear _ _ => True
  end.

(** The first occurrence of each element, in order. *)
Fixpoint keep_first (l : list Z) : list Z :=
  match l with
  | [] => []
  | x :: l' => x :: List.filter (fun y => negb (y =? x)) (keep_first l')
  end.

(** * Properties *)

(** ** Arrays *)

Lemma includes_In (l : list Z) (x : Z) : includes l x = true <-> In x l.
Proof.
  unfold includes. rewrite List.existsb_exists. split.
  - intros [y [Hy Heq]]. apply Z.eqb_eq in Heq. now subst.
  - intros H. exists x. split; [assumption | apply Z.eqb_refl].
Qed.

Lemma includes_false (l : list Z) (x : Z) : includes l x = false <-> ~ In x l.
Proof.
  rewrite <- includes_In. destruct (includes l x); split; congruence.
Qed.

Lemma includes_push (l : list Z) (x y : Z) :
  includes (push l y) x = includes l x || (y =? x).
Proof.
  unfold includes, push. rewrite List.existsb_app. simpl.
  now rewrite orb_false_r.
Qed.

Lemma indexOf_lower (l : list Z) (x : Z) : -1 <= indexOf l x.
Proof.
  induction l as [|y l IH]; simpl; [lia|].
  destruct (y =? x); [lia|].
  destruct (indexOf l x =? -1) eqn:E; lia.
Qed.

Lemma indexOf_upper (l : list Z) (x : Z) : indexOf l x < Z.of_nat (length l).
Proof.
  induction l as [|y l IH]; simpl length; simpl indexOf; [lia|].
  destruct (y =? x); [lia|].
  destruct (indexOf l x =? -1) eqn:E; lia.
Qed.

Lemma indexOf_includes (l : list Z) (x : Z) :
  (indexOf l x =? -1) = negb (includes l x).
Proof.
  induction l as [|y l IH]; simpl; [reflexivity|].
  destruct (y =? x); simpl; [reflexivity|].
  rewrite <- IH. pose proof (indexOf_lower l x).
  destruct (indexOf l x =? -1) eqn:E; [reflexivity|].
  apply Z.eqb_neq in E. apply Z.eqb_neq. lia.
Qed.

Lemma indexOf_absent (l : list Z) (x : Z) : indexOf l x = -1 <-> ~ In x l.
Proof.
  rewrite <- includes_false, <- Z.eqb_eq, indexOf_includes.
  destruct (includes l x); simpl; split; congruence.
Qed.

Lemma splice_cons (y : Z) (l : list Z) (i : Z) :
  0 <= i -> splice (y :: l) (i + 1) 1 = y :: splice l i 1.
Proof.
  intros Hi. unfold splice. simpl length.
  assert (H1 : (i + 1 <? 0) = false) by (apply Z.ltb_ge; lia).
  assert (H2 : (i <? 0) = false) by (apply Z.ltb_ge; lia).
  rewrite H1, H2.
  set (len := Z.of_nat (length l)).
  replace (Z.of_nat (S (length l))) with (len + 1) by (unfold len; lia).
  replace (Z.min (i + 1) (len + 1)) with (Z.min i len + 1) by lia.
  replace (len + 1 - (Z.min i len + 1)) with (len - Z.min i len) by lia.
  set (st := Z.min i len).
  set (dc := Z.min (Z.max 1 0) (len - st)).
  assert (0 <= st) by (unfold st, len; lia).
  assert (0 <= dc) by (unfold dc, st, len; lia).
  replace (Z.to_nat (st + 1)) with (S (Z.to_nat st)) by lia.
  replace (Z.to_nat (st + 1 + dc)) with (S (Z.to_nat (st + dc))) by lia.
  reflexivity.
Qed.

Lemma splice_head (y : Z) (l : list Z) : splice (y :: l) 0 1 = l.
Proof.
  unfold splice. simpl length. rewrite Z.ltb_irrefl.
  set (len := Z.of_nat (S (length l))).
  assert (1 <= len) by (unfold len; lia).
  replace (Z.min 0 len) with 0 by lia.
  replace (0 + Z.min (Z.max 1 0) (len - 0)) with 1 by lia.
  reflexivity.
Qed.

(** [splice] at the index that [indexOf] found takes out the first
    occurrence. *)
Lemma splice_indexOf (l : list Z) (x : Z) :
  indexOf l x <> -1 -> splice l (indexOf l x) 1 = spec_remove x l.
Proof.
  induction l as [|y l IH]; simpl indexOf; simpl spec_remove; [congruence|].
  destruct (y =? x); intros H.
  - apply splice_head.
  - destruct (indexOf l x =? -1) eqn:E; [congruence|].
    apply Z.eqb_neq in E. pose proof (indexOf_lower l x).
    rewrite splice_cons by lia. now rewrite IH.
Qed.

Lemma spec_remove_absent (x : Z) (l : list Z) : ~ In x l -> spec_remove x l = l.
Proof.
  induction l as [|y l IH]; simpl; [reflexivity|]. intros H.
  destruct (y =? x) eqn:E.
  - apply Z.eqb_eq in E. tauto.
  - f_equal. apply IH. tauto.
Qed.

(** What [spec_remove] takes out is the first occurrence and nothing else. *)
Lemma spec_remove_first (x : Z) (l : list Z) :
  In x l ->
  exists l1 l2, l = l1 ++ x :: l2 /\ ~ In x l1 /\ spec_remove x l = l1 ++ l2.
Proof.
  induction l as [|y l IH]; simpl; [tauto|]. intros H.
  destruct (y =? x) eqn:E.
  - apply Z.eqb_eq in E. subst y. exists [], l. simpl. tauto.
  - apply Z.eqb_neq in E. destruct H as [H|H]; [congruence|].
    destruct (IH H) as (l1 & l2 & -> & Hn & Hr).
    exists (y :: l1), l2. simpl. rewrite Hr. intuition congruence.
Qed.


(** ** The monad *)

Lemma bind_val {A B} (m : M A) (k : A -> M B) (s s1 : State) (a : A) :
  m s = (Val a, s1) -> bind m k s = k a s1.
Proof. intros H. unfold bind. now rewrite H. Qed.

Lemma bind_throw {A B} (m : M A) (k : A -> M B) (s s1 : State) (e : Thrown) :
  m s = (Throw e, s1) -> bind m k s = (Throw e, s1).
Proof. intros H. unfold bind. now rewrite H. Qed.

Lemma bind_inv {A B} (m : M A) (k : A -> M B) (s s' : State) (r : Res B) :
  bind m k s = (r, s') ->
  (exists a s1, m s = (Val a, s1) /\ k a s1 = (r, s')) \/
  (exists e, m s = (Throw e, s') /\ r = Throw e).
Proof.
  unfold bind. destruct (m s) as [[a|e] s1]; intros H.
  - left. eauto.
  - right. exists e. split; congruence.
Qed.

(** ** [fetchWhitelist] *)

Lemma refetch_ok (s : State) :
  next_fault s = None ->
  refetch (clock s) s = (Val (new_entry s), refetched s).
Proof.
  intros H. unfold refetch, try_catch, bind, getContent, remote_call, bind.
  rewrite H. reflexivity.
Qed.

Lemma refetch_fail (s : State) (e : Thrown) :
  next_fault s = Some e ->
  refetch (clock s) s = (Throw fetch_failed, called GetContent s).
Proof.
  intros H. unfold refetch, try_catch, bind, getContent, remote_call, bind.
  rewrite H. reflexivity.
Qed.

Lemma fetchWhitelist_unfold (s : State) :
  fetchWhitelist s =
  match whitelistCache s with
  | Some e => if is_fresh s then (Val e, s) else refetch (clock s) s
  | None => refetch (clock s) s
  end.
Proof.
  unfold fetchWhitelist, is_fresh, bind, gets.
  destruct (whitelistCache s); [|reflexivity].
  now destruct (clock s - lastFetch s <? CACHE_DURATION).
Qed.

Lemma fetchWhitelist_hit (s : State) (e : Entry) :
  whitelistCache s = Some e ->
  clock s - lastFetch s < CACHE_DURATION ->
  fetchWhitelist s = (Val e, s).
Proof.
  intros Hc Ht. rewrite fetchWhitelist_unfold, Hc. unfold is_fresh.
  rewrite Hc. apply Z.ltb_lt in Ht. now rewrite Ht.
Qed.

Lemma fetchWhitelist_miss (s : State) :
  is_fresh s = false -> fetchWhitelist s = refetch (clock s) s.
Proof.
  intros H. rewrite fetchWhitelist_unfold.
  destruct (whitelistCache s); [now rewrite H | reflexivity].
Qed.

(** The three ways a fetch can go. *)
Lemma fetchWhitelist_cases (s : State) :
  (exists e, whitelistCache s = Some e /\ is_fresh s = true /\
             fetchWhitelist s = (Val e, s)) \/
  (is_fresh s = false /\ next_fault s = None /\
   fetchWhitelist s = (Val (new_entry s), refetched s)) \/
  (is_fresh s = false /\ (exists err, next_fault s = Some err) /\
   fetchWhitelist s = (Throw fetch_failed, called GetContent s)).
Proof.
  destruct (is_fresh s) eqn:F.
  - left. unfold is_fresh in F. destruct (whitelistCache s) as [e|] eqn:C; [|discriminate].
    exists e. split; [reflexivity|]. split; [reflexivity|].
    rewrite fetchWhitelist_unfold, C. unfold is_fresh. now rewrite C, F.
  - right. rewrite (fetchWhitelist_miss s F).
    destruct (next_fault s) as [err|] eqn:E.
    + right. split; [reflexivity|]. split; [eauto|]. now apply refetch_fail with err.
    + left. split; [reflexivity|]. split; [reflexivity|]. now apply refetch_ok.
Qed.

Lemma commits_app (l1 l2 : list Call) :
  commits (l1 ++ l2) = (commits l1 + commits l2)%nat.
Proof. unfold commits. now rewrite List.filter_app, List.length_app. Qed.

(** What a fetch leaves untouched, whatever its outcome. *)
Lemma fetchWhitelist_frame (s s1 : State) (r : Res Entry) :
  fetchWhitelist s = (r, s1) ->
  remote s1 = remote s /\
  commits (calls s1) = commits (calls s) /\
  (forall l d, heap s !! l = Some d -> heap s1 !! l = Some d) /\
  (wf s -> wf s1) /\
  (no_faults s -> no_faults s1) /\
  (no_faults s -> exists e, r = Val e) /\
  (forall e, r = Val e ->
     whitelistCache s1 = Some e /\
     (is_fresh s = false ->
        sha e = r_sha (remote s1) /\ heap s1 !! data e = Some (r_doc (remote s1)))).
Proof.
  intros H.
  assert (Hpop : forall s0 : State, no_faults s0 ->
            List.Forall (fun x => snd x = None) (List.tl (script s0))).
  { unfold no_faults. intros s0 N. destruct (script s0); [constructor|].
    now inversion N. }
  destruct (fetchWhitelist_cases s) as [(e & C & F & E)|[(F & NF & E)|(F & [err NF] & E)]];
    rewrite E in H; inversion H; subst; clear H.
  - split; [reflexivity|]. split; [reflexivity|]. split; [auto|].
    split; [auto|]. split; [auto|]. split; [eauto|].
    intros e' He'. inversion He'; subst. split; [assumption|]. congruence.
  - split; [reflexivity|].
    split; [simpl calls; rewrite commits_app; change (commits [GetContent]) with 0%nat; lia|].
    split; [intros l d Hl; simpl heap; now apply lookup_app_l_Some|].
    split.
    { intros W e He. simpl in He. inversion He; subst. simpl.
      rewrite length_app. simpl. lia. }
    split; [apply Hpop|]. split; [eauto|].
    intros e He. inversion He; subst. split; [reflexivity|]. intros _.
    split; [reflexivity|]. simpl.
    rewrite lookup_app_r by lia. now rewrite Nat.sub_diag.
  - split; [reflexivity|].
    split; [simpl calls; rewrite commits_app; change (commits [GetContent]) with 0%nat; lia|].
    split; [auto|]. split; [auto|]. split; [apply Hpop|].
    split; [|congruence].
    intros N. exfalso. unfold no_faults, next_fault in *.
    destruct (script s) as [|[dt f] rest]; [discriminate|].
    inversion N; subst. simpl in *. congruence.
Qed.

(** Running the first action of a [bind] whose outcome is known. *)
Tactic Notation "run" open_constr(H) :=
  rewrite (bind_val _ _ _ _ _ H); cbv beta zeta.

(** ** The heap *)

Lemma set_heap_same (s : State) : set_heap (heap s) s = s.
Proof. now destruct s. Qed.

Lemma set_whitelist_same (d : Doc) : set_whitelist d (whitelist d) = d.
Proof. now destruct d. Qed.

Lemma set_whitelist_twice (d : Doc) (a b : list Z) :
  set_whitelist (set_whitelist d a) b = set_whitelist d b.
Proof. reflexivity. Qed.

Lemma deref_ok (s : State) (l : nat) (d : Doc) :
  heap s !! l = Some d -> deref l s = (Val d, s).
Proof. intros H. unfold deref. now rewrite H. Qed.

Lemma edit_whitelist_ok (s : State) (l : nat) (d : Doc) (f : list Z -> list Z) :
  heap s !! l = Some d ->
  edit_whitelist l f s =
  (Val tt, set_heap (<[l := set_whitelist d (f (whitelist d))]> (heap s)) s).
Proof.
  intros H. unfold edit_whitelist. rewrite (bind_val _ _ _ _ _ (deref_ok _ _ _ H)).
  reflexivity.
Qed.

Lemma edited_lookup (s : State) (l : nat) (d d' : Doc) :
  heap s !! l = Some d ->
  heap (set_heap (<[l := d']> (heap s)) s) !! l = Some d'.
Proof.
  intros H. simpl. apply list_lookup_insert_eq. now apply lookup_lt_Some in H.
Qed.

Lemma edited_twice (s : State) (l : nat) (d1 d2 : Doc) :
  set_heap (<[l := d2]> (heap (set_heap (<[l := d1]> (heap s)) s)))
           (set_heap (<[l := d1]> (heap s)) s)
  = set_heap (<[l := d2]> (heap s)) s.
Proof. unfold set_heap. simpl. now rewrite list_insert_insert_eq. Qed.

Lemma edited_same (s : State) (l : nat) (d : Doc) :
  heap s !! l = Some d -> set_heap (<[l := d]> (heap s)) s = s.
Proof. intros H. rewrite list_insert_id by assumption. apply set_heap_same. Qed.

(** ** The loops of the bulk commands refine the specification's folds *)

Lemma bulk_add_loop_spec (ids : list Z) :
  forall (l : nat) (s : State) (d : Doc) (k0 a0 w' a k : list Z),
    heap s !! l = Some d ->
    spec_bulk_add ids (whitelist d) = (w', a, k) ->
    bulk_add_loop l ids k0 a0 s =
    (Val (k0 ++ k, a0 ++ a), set_heap (<[l := set_whitelist d w']> (heap s)) s).
Proof.
  induction ids as [|id ids IH]; intros l s d k0 a0 w' a k Hl Hs.
  - simpl in Hs. inversion Hs; subst. simpl. unfold ret.
    rewrite !app_nil_r, set_whitelist_same, edited_same by assumption.
    reflexivity.
  - simpl in Hs. simpl bulk_add_loop.
    run (deref_ok _ _ _ Hl).
    destruct (spec_bulk_add ids (spec_add id (whitelist d))) as [[w1 a1] k1] eqn:E.
    unfold spec_add in E. destruct (includes (whitelist d) id) eqn:I.
    + inversion Hs; subst.
      rewrite (IH l s d (push k0 id) a0 w' a k1 Hl E).
      unfold push. now rewrite <- app_assoc.
    + inversion Hs; subst. cbv iota.
      run (edit_whitelist_ok _ _ _ _ Hl).
      set (d1 := set_whitelist d (push (whitelist d) id)).
      rewrite (IH l _ d1 k0 (push a0 id) w' a1 k (edited_lookup _ _ _ d1 Hl) E).
      unfold d1. rewrite set_whitelist_twice, edited_twice.
      unfold push. now rewrite <- app_assoc.
Qed.

Lemma bulk_remove_loop_spec (ids : list Z) :
  forall (l : nat) (s : State) (d : Doc) (k0 a0 w' a k : list Z),
    heap s !! l = Some d ->
    spec_bulk_remove ids (whitelist d) = (w', a, k) ->
    bulk_remove_loop l ids k0 a0 s =
    (Val (k0 ++ k, a0 ++ a), set_heap (<[l := set_whitelist d w']> (heap s)) s).
Proof.
  induction ids as [|id ids IH]; intros l s d k0 a0 w' a k Hl Hs.
  - simpl in Hs. inversion Hs; subst. simpl. unfold ret.
    rewrite !app_nil_r, set_whitelist_same, edited_same by assumption.
    reflexivity.
  - simpl in Hs. simpl bulk_remove_loop.
    run (deref_ok _ _ _ Hl).
    destruct (spec_bulk_remove ids (spec_remove id (whitelist d))) as [[w1 a1] k1] eqn:E.
    rewrite indexOf_includes.
    destruct (includes (whitelist d) id) eqn:I; cbv beta iota delta [negb].
    + inversion Hs; subst.
      run (edit_whitelist_ok _ _ _ _ Hl).
      assert (Hi : indexOf (whitelist d) id <> -1).
      { rewrite indexOf_absent. apply includes_In in I. tauto. }
      rewrite (splice_indexOf _ _ Hi).
      set (d1 := set_whitelist d (spec_remove id (whitelist d))).
      rewrite (IH l _ d1 k0 (push a0 id) w' a1 k (edited_lookup _ _ _ d1 Hl) E).
      unfold d1. rewrite set_whitelist_twice, edited_twice.
      unfold push. now rewrite <- app_assoc.
    + inversion Hs; subst.
      apply includes_false in I. rewrite (spec_remove_absent _ _ I) in E.
      rewrite (IH l s d (push k0 id) a0 w' a k1 Hl E).
      unfold push. now rewrite <- app_assoc.
Qed.

(** ** [updateWhitelist] *)

Lemma createOrUpdateFileContents_unfold
    (d : Doc) (rev : Sha) (message : CommitMessage) (s : State) :
  createOrUpdateFileContents d rev message s =
  match next_fault s with
  | Some e => (Throw e, called (PutContent d rev message) s)
  | None =>
      if (rev =? r_sha (remote s))%N
      then (Val tt, set_remote (mkRemote d (N.succ (r_sha (remote s))))
                      (called (PutContent d rev message) s))
      else (Throw (RequestError 409), called (PutContent d rev message) s)
  end.
Proof.
  unfold createOrUpdateFileContents, accepts, store, bind, remote_call, gets.
  destruct (next_fault s); [reflexivity|]. simpl.
  now destruct (rev =? r_sha (remote s))%N.
Qed.

Lemma updateWhitelist_unfold (l : nat) (message : CommitMessage) (s : State) :
  updateWhitelist l message s =
  match fetchWhitelist s with
  | (Throw _, s1) => (Throw update_failed, s1)
  | (Val e, s1) =>
      match heap s1 !! l with
      | None => (Throw update_failed, s1)
      | Some d =>
          match next_fault s1 with
          | Some _ => (Throw update_failed, called (PutContent d (sha e) message) s1)
          | None =>
              if (sha e =? r_sha (remote s1))%N
              then (Val true, committed d (sha e) message s1)
              else (Throw update_failed, called (PutContent d (sha e) message) s1)
          end
      end
  end.
Proof.
  unfold updateWhitelist, try_catch, bind at 1.
  destruct (fetchWhitelist s) as [[e|err] s1]; [|reflexivity].
  unfold bind at 1, deref.
  destruct (heap s1 !! l) as [d|]; [|reflexivity].
  unfold bind at 1. rewrite createOrUpdateFileContents_unfold.
  destruct (next_fault s1); [reflexivity|].
  destruct (sha e =? r_sha (remote s1))%N; reflexivity.
Qed.

(** ** The cache: time to live, invalidation, failures *)

Lemma refetches_miss (s : State) : is_fresh s = false -> refetches s.
Proof.
  intros F. unfold refetches.
  destruct (fetchWhitelist_cases s) as [(e & C & F' & E)|[(_ & NF & E)|(_ & [err NF] & E)]].
  - congruence.
  - exists (Val (new_entry s)), (refetched s). split; [assumption|].
    split; [reflexivity|]. intros _. repeat split.
    unfold cached_doc. simpl.
    rewrite lookup_app_r by lia. now rewrite Nat.sub_diag.
  - exists (Throw fetch_failed), (called GetContent s). split; [assumption|].
    split; [reflexivity|]. congruence.
Qed.

Lemma is_fresh_stale (s : State) :
  CACHE_DURATION <= clock s - lastFetch s -> is_fresh s = false.
Proof.
  intros H. unfold is_fresh. destruct (whitelistCache s); [|reflexivity].
  apply Z.ltb_ge. exact H.
Qed.

Lemma is_fresh_absent (s : State) : whitelistCache s = None -> is_fresh s = false.
Proof. intros H. unfold is_fresh. now rewrite H. Qed.

(** C3 (as amended).  A read that returned the entry [e] is followed, as
    long as the cache is not invalidated, by reads that return the very same
    entry without any call to the store while less than [CACHE_DURATION]
    (60 s) has passed since the fetch that filled the cache ([lastFetch]);
    the window is counted from that fetch, not from the previous read.  Once
    [CACHE_DURATION] has passed since that fetch, or after an invalidation,
    a read calls the store and, when the call succeeds, stores its result as
    the new entry dated at the time of the read. *)
Theorem cache_ttl (s s1 : State) (e : Entry) :
  fetchWhitelist s = (Val e, s1) ->
  forall s2 : State,
    whitelistCache s2 = whitelistCache s1 ->
    lastFetch s2 = lastFetch s1 ->
    (clock s2 - lastFetch s1 < CACHE_DURATION -> fetchWhitelist s2 = (Val e, s2)) /\
    (CACHE_DURATION <= clock s2 - lastFetch s1 -> refetches s2) /\
    refetches (snd (invalidate s2)).
Proof.
  intros H s2 Hc Hl.
  destruct (fetchWhitelist_frame _ _ _ H) as (_ & _ & _ & _ & _ & _ & Hv).
  destruct (Hv e eq_refl) as [Hcache _].
  split; [|split].
  - intros Ht. apply fetchWhitelist_hit; [congruence | now rewrite Hl].
  - intros Ht. apply refetches_miss, is_fresh_stale. now rewrite Hl.
  - apply refetches_miss, is_fresh_absent. reflexivity.
Qed.

Lemma cache_ttl_witness :
  let s := boot remote123 0 [] in
  let s1 := refetched s in
  let s2 := at_time 59999 s1 in
  fetchWhitelist s2 = (Val (new_entry s), s2).
Proof.
  intros s s1 s2.
  apply (proj1 (cache_ttl s s1 (new_entry s) eq_refl s2 eq_refl eq_refl)).
  vm_compute. reflexivity.
Defined.

(** C3 as the specification states it fails: the second of two reads that
    are 2 s apart, with no invalidation in between, goes to the store and
    returns another entry, because the cached entry was fetched 61 s ago. *)
Lemma cache_ttl_counterexample :
  let s0 := boot remote123 0 [] in
  let first := fetchWhitelist (at_time 59000 (snd (fetchWhitelist s0))) in
  let second := fetchWhitelist (at_time 61000 (snd first)) in
  61000 - 59000 < CACHE_DURATION /\
  whitelistCache (at_time 61000 (snd first)) = whitelistCache (snd first) /\
  fst first = Val (mkEntry 0 7%N) /\
  fst second = Val (mkEntry 1 7%N) /\
  fst second <> fst first /\
  calls (snd second) = calls (snd first) ++ [GetContent].
Proof.
  vm_compute. repeat split; congruence.
Qed.

(** C4.  When [updateWhitelist] succeeds the cache entry is absent, and the
    next read goes to the store whatever the time at which it is made. *)
Theorem write_invalidates
    (s s' : State) (newWhitelist : nat) (message : CommitMessage) :
  updateWhitelist newWhitelist message s = (Val true, s') ->
  whitelistCache s' = None /\ forall t : Z, refetches (at_time t s').
Proof.
  rewrite updateWhitelist_unfold.
  destruct (fetchWhitelist s) as [[e|err] s1]; [|congruence].
  destruct (heap s1 !! newWhitelist) as [d|]; [|congruence].
  destruct (next_fault s1); [congruence|].
  destruct (sha e =? r_sha (remote s1))%N; [|congruence].
  intros H. inversion H; subst. split; [reflexivity|].
  intros t. apply refetches_miss, is_fresh_absent. reflexivity.
Qed.

Lemma write_invalidates_witness :
  let s := snd (add_mutation 4 (boot remote123 0 [])) in
  let s' := snd (updateWhitelist 0 (MsgCleared 0) s) in
  whitelistCache s' = None /\ refetches (at_time 1 s').
Proof.
  intros s s'.
  destruct (write_invalidates s s' 0%nat (MsgCleared 0) eq_refl) as [H1 H2].
  split; [exact H1 | exact (H2 1)].
Defined.

(** C5 (as amended).  A failure raised while fetching or committing is
    never turned into a normal return: [fetchWhitelist] and
    [updateWhitelist] then throw.  But what they throw is a fixed error of
    their own ([fetch_failed], [update_failed]) that replaces the error of
    the store, whatever it was, and the dispatcher renders the message of
    that fixed error. *)
Theorem failures_are_rethrown (s : State) :
  (forall err, is_fresh s = false -> next_fault s = Some err ->
     fetchWhitelist s = (Throw fetch_failed, called GetContent s)) /\
  (forall l message r s',
     updateWhitelist l message s = (r, s') -> r = Val true \/ r = Throw update_failed) /\
  (forall l message err s1,
     fetchWhitelist s = (Throw err, s1) ->
     updateWhitelist l message s = (Throw update_failed, s1)) /\
  (forall l message e s1 d err s2,
     fetchWhitelist s = (Val e, s1) ->
     heap s1 !! l = Some d ->
     createOrUpdateFileContents d (sha e) message s1 = (Throw err, s2) ->
     updateWhitelist l message s = (Throw update_failed, s2)) /\
  (forall c err s',
     handle c s = (Throw err, s') ->
     interactionCreate true c s = (Val (ErrorEmbed (message_of err)), s')).
Proof.
  split; [|split; [|split; [|split]]].
  - intros err F NF. rewrite (fetchWhitelist_miss s F). now apply refetch_fail with err.
  - intros l message r s'. rewrite updateWhitelist_unfold.
    destruct (fetchWhitelist s) as [[e|err] s1]; [|intros H; inversion H; auto].
    destruct (heap s1 !! l) as [d|]; [|intros H; inversion H; auto].
    destruct (next_fault s1); [intros H; inversion H; auto|].
    destruct (sha e =? r_sha (remote s1))%N; intros H; inversion H; auto.
  - intros l message err s1 H. rewrite updateWhitelist_unfold. now rewrite H.
  - intros l message e s1 d err s2 H Hd. rewrite createOrUpdateFileContents_unfold.
    rewrite updateWhitelist_unfold, H, Hd.
    destruct (next_fault s1); [intros E; now inversion E|].
    destruct (sha e =? r_sha (remote s1))%N; intros E; now inversion E.
  - intros c err s' H.
    cbv beta iota delta [interactionCreate negb try_catch]. now rewrite H.
Qed.

Lemma failures_are_rethrown_witness :
  let s := boot remote123 0 [(20%N, Some (RequestError 503))] in
  fetchWhitelist s = (Throw fetch_failed, called GetContent s) /\
  updateWhitelist 0 (MsgCleared 3) s = (Throw update_failed, called GetContent s) /\
  interactionCreate true (Check (js "2")) s
  = (Val (ErrorEmbed (message_of fetch_failed)), called GetContent s).
Proof.
  intros s.
  destruct (failures_are_rethrown s) as (H1 & H2 & H3 & H4 & H5).
  split; [exact (H1 (RequestError 503) eq_refl eq_refl)|].
  split; [exact (H3 0%nat (MsgCleared 3) fetch_failed _ eq_refl)|].
  exact (H5 (Check (js "2")) fetch_failed _ eq_refl).
Defined.

(** C5 as the specification states it fails: a revision conflict (the
    store answers 409 because somebody else committed) and an unavailable
    store (503) reach the dispatcher as the same error, which is neither
    of them; the caller cannot tell the two apart. *)
Lemma failures_are_rethrown_counterexample :
  let s := snd (add_mutation 4 (boot remote123 0 [])) in
  let conflict := external_commit (mkDoc [1; 2; 3; 9] []) s in
  let down := set_script [(20%N, Some (RequestError 503))] s in
  fst (createOrUpdateFileContents (mkDoc [1; 2; 3; 4] []) 7%N (MsgCleared 0) conflict)
    = Throw (RequestError 409) /\
  fst (createOrUpdateFileContents (mkDoc [1; 2; 3; 4] []) 7%N (MsgCleared 0) down)
    = Throw (RequestError 503) /\
  fst (updateWhitelist 0 (MsgCleared 0) conflict) = Throw update_failed /\
  fst (updateWhitelist 0 (MsgCleared 0) down) = Throw update_failed /\
  Throw (A := bool) update_failed <> Throw (RequestError 409) /\
  fst (interactionCreate true (Add (js "4") None)
         (external_commit (mkDoc [1; 2; 3; 9] []) (snd (fetchWhitelist (boot remote123 0 [])))))
  = fst (interactionCreate true (Add (js "4") None)
         (boot remote123 0 [(0%N, None); (20%N, Some (RequestError 503))])).
Proof.
  vm_compute. repeat split; congruence.
Qed.

(** ** The mutation steps *)

Section Mutation.

(** A fetch at [s] returned the entry [e], whose document is [d]. *)
Variables (s s1 : State) (e : Entry) (d : Doc).
Hypothesis Hfetch : fetchWhitelist s = (Val e, s1).
Hypothesis Hdoc : heap s1 !! data e = Some d.

Lemma fetched_is_cached : whitelistCache s1 = Some e.
Proof.
  destruct (fetchWhitelist_frame _ _ _ Hfetch) as (_ & _ & _ & _ & _ & _ & Hv).
  exact (proj1 (Hv e eq_refl)).
Qed.

Lemma cached_doc_fetched : cached_doc s1 = Some d.
Proof. unfold cached_doc. now rewrite fetched_is_cached. Qed.

Lemma cached_doc_edited (w : list Z) :
  cached_doc (edited (data e) d w s1) = Some (set_whitelist d w).
Proof.
  unfold cached_doc, edited. simpl whitelistCache. rewrite fetched_is_cached.
  now apply edited_lookup with d.
Qed.

Lemma edited_unchanged : edited (data e) d (whitelist d) s1 = s1.
Proof. unfold edited. rewrite set_whitelist_same. now apply edited_same. Qed.

Lemma add_mutation_run (id : Z) :
  add_mutation id s =
  if includes (whitelist d) id then (Val None, s1)
  else (Val (Some (data e)), edited (data e) d (push (whitelist d) id) s1).
Proof.
  unfold add_mutation. run Hfetch. run (deref_ok _ _ _ Hdoc).
  destruct (includes (whitelist d) id); [reflexivity|].
  run (edit_whitelist_ok _ _ _ _ Hdoc). reflexivity.
Qed.

Lemma remove_mutation_run (id : Z) :
  remove_mutation id s =
  if includes (whitelist d) id
  then (Val (Some (data e)), edited (data e) d (spec_remove id (whitelist d)) s1)
  else (Val None, s1).
Proof.
  unfold remove_mutation. run Hfetch. run (deref_ok _ _ _ Hdoc).
  rewrite indexOf_includes.
  destruct (includes (whitelist d) id) eqn:I; cbv beta iota delta [negb];
    [|reflexivity].
  run (edit_whitelist_ok _ _ _ _ Hdoc).
  rewrite splice_indexOf; [reflexivity|].
  rewrite indexOf_absent. apply includes_In in I. tauto.
Qed.

Lemma bulk_add_mutation_run (ids w' a k : list Z) :
  spec_bulk_add ids (whitelist d) = (w', a, k) ->
  bulk_add_mutation ids s = (Val (data e, (k, a)), edited (data e) d w' s1).
Proof.
  intros Hs. unfold bulk_add_mutation. run Hfetch.
  run (bulk_add_loop_spec ids (data e) s1 d [] [] w' a k Hdoc Hs).
  reflexivity.
Qed.

Lemma bulk_remove_mutation_run (ids w' a k : list Z) :
  spec_bulk_remove ids (whitelist d) = (w', a, k) ->
  bulk_remove_mutation ids s = (Val (data e, (k, a)), edited (data e) d w' s1).
Proof.
  intros Hs. unfold bulk_remove_mutation. run Hfetch.
  run (bulk_remove_loop_spec ids (data e) s1 d [] [] w' a k Hdoc Hs).
  reflexivity.
Qed.

Lemma clear_mutation_run :
  clear_mutation s = (Val (data e, length (whitelist d)), edited (data e) d [] s1).
Proof.
  unfold clear_mutation. run Hfetch. run (deref_ok _ _ _ Hdoc).
  run (edit_whitelist_ok _ _ _ _ Hdoc). reflexivity.
Qed.

End Mutation.

(** ** The handlers, one step at a time *)

(** The commit and the answer that end a mutating handler. *)
Lemma commit_tail (l : nat) (message : CommitMessage) (reply : Reply) (s : State) :
  (updateWhitelist l message ;;; logAction ;;; ret reply) s =
  match updateWhitelist l message s with
  | (Val _, s') => (Val reply, s')
  | (Throw err, s') => (Throw err, s')
  end.
Proof.
  unfold bind at 1. destruct (updateWhitelist l message s) as [[b|err] s']; reflexivity.
Qed.

Lemma cmd_add_unfold (userId : jsstring) (reason0 : option jsstring) (s : State) :
  test_digits userId = true ->
  cmd_add userId reason0 s =
  match add_mutation (parseInt userId) s with
  | (Val None, s1) => (Val (AlreadyWhitelisted userId), s1)
  | (Val (Some l), s1) =>
      match updateWhitelist l (MsgAdded userId (or_default reason0 "No reason provided")) s1 with
      | (Val _, s') => (Val (UserAdded userId (or_default reason0 "No reason provided")), s')
      | (Throw err, s') => (Throw err, s')
      end
  | (Throw err, s1) => (Throw err, s1)
  end.
Proof.
  intros T. unfold cmd_add. rewrite T. cbv beta iota zeta delta [negb].
  unfold bind at 1.
  destruct (add_mutation (parseInt userId) s) as [[[l|]|err] s1]; try reflexivity.
Qed.

Lemma cmd_remove_unfold (userId : jsstring) (reason0 : option jsstring) (s : State) :
  test_digits userId = true ->
  cmd_remove userId reason0 s =
  match remove_mutation (parseInt userId) s with
  | (Val None, s1) => (Val (NotInWhitelist userId), s1)
  | (Val (Some l), s1) =>
      match updateWhitelist l (MsgRemoved userId (or_default reason0 "No reason provided")) s1 with
      | (Val _, s') => (Val (UserRemoved userId (or_default reason0 "No reason provided")), s')
      | (Throw err, s') => (Throw err, s')
      end
  | (Throw err, s1) => (Throw err, s1)
  end.
Proof.
  intros T. unfold cmd_remove. rewrite T. cbv beta iota zeta delta [negb].
  unfold bind at 1.
  destruct (remove_mutation (parseInt userId) s) as [[[l|]|err] s1]; try reflexivity.
Qed.

Lemma length_eqb_0 {A} (l : list A) : (length l =? 0)%nat = true <-> l = [].
Proof. destruct l; simpl; split; congruence. Qed.

Lemma cmd_bulk_add_unfold (userIds : jsstring) (reason0 : option jsstring) (s : State) :
  parse_ids userIds <> [] ->
  cmd_bulk_add userIds reason0 s =
  match bulk_add_mutation (parse_ids userIds) s with
  | (Val (l, (k, [])), s1) => (Val (BulkAddResults [] k), s1)
  | (Val (l, (k, a)), s1) =>
      match updateWhitelist l
              (MsgBulkAdded (length a) (or_default reason0 "Bulk add - No reason provided")) s1 with
      | (Val _, s') => (Val (BulkAddResults a k), s')
      | (Throw err, s') => (Throw err, s')
      end
  | (Throw err, s1) => (Throw err, s1)
  end.
Proof.
  intros T. unfold cmd_bulk_add. cbv zeta.
  destruct (length (parse_ids userIds) =? 0)%nat eqn:L.
  { apply length_eqb_0 in L. contradiction. }
  unfold bind at 1.
  destruct (bulk_add_mutation (parse_ids userIds) s) as [[[l [k a]]|err] s1];
    [|reflexivity].
  cbv beta iota delta [fst snd]. destruct a as [|x a]; [reflexivity|].
  change (0 <? length (x :: a))%nat with true. cbv iota.
  unfold bind at 1, bind at 1, logAction, ret.
  destruct (updateWhitelist l _ s1) as [[b|err] s']; reflexivity.
Qed.

Lemma cmd_bulk_remove_unfold (userIds : jsstring) (reason0 : option jsstring) (s : State) :
  parse_ids userIds <> [] ->
  cmd_bulk_remove userIds reason0 s =
  match bulk_remove_mutation (parse_ids userIds) s with
  | (Val (l, (k, [])), s1) => (Val (BulkRemoveResults [] k), s1)
  | (Val (l, (k, a)), s1) =>
      match updateWhitelist l
              (MsgBulkRemoved (length a) (or_default reason0 "Bulk remove - No reason provided")) s1 with
      | (Val _, s') => (Val (BulkRemoveResults a k), s')
      | (Throw err, s') => (Throw err, s')
      end
  | (Throw err, s1) => (Throw err, s1)
  end.
Proof.
  intros T. unfold cmd_bulk_remove. cbv zeta.
  destruct (length (parse_ids userIds) =? 0)%nat eqn:L.
  { apply length_eqb_0 in L. contradiction. }
  unfold bind at 1.
  destruct (bulk_remove_mutation (parse_ids userIds) s) as [[[l [k a]]|err] s1];
    [|reflexivity].
  cbv beta iota delta [fst snd]. destruct a as [|x a]; [reflexivity|].
  change (0 <? length (x :: a))%nat with true. cbv iota.
  unfold bind at 1, bind at 1, logAction, ret.
  destruct (updateWhitelist l _ s1) as [[b|err] s']; reflexivity.
Qed.

(** ** What never reaches the store *)

Lemma quiet_refl (s : State) : quiet s s.
Proof. now split. Qed.

Lemma quiet_trans (s s1 s2 : State) : quiet s s1 -> quiet s1 s2 -> quiet s s2.
Proof. unfold quiet. intros [A B] [C D]. split; congruence. Qed.

Lemma fetchWhitelist_quiet (s s1 : State) (r : Res Entry) :
  fetchWhitelist s = (r, s1) -> quiet s s1.
Proof.
  intros H. destruct (fetchWhitelist_frame _ _ _ H) as (A & B & _). now split.
Qed.

Lemma ret_quiet {A} (a : A) : makes_no_commit (ret a).
Proof. intros s r s' H. inversion H. apply quiet_refl. Qed.

Lemma bind_quiet {A B} (m : M A) (k : A -> M B) :
  makes_no_commit m -> (forall a, makes_no_commit (k a)) -> makes_no_commit (bind m k).
Proof.
  intros Hm Hk s r s' H. apply bind_inv in H.
  destruct H as [(a & s1 & H1 & H2)|(err & H1 & _)].
  - exact (quiet_trans _ _ _ (Hm _ _ _ H1) (Hk _ _ _ _ H2)).
  - exact (Hm _ _ _ H1).
Qed.

Lemma deref_quiet (l : nat) : makes_no_commit (deref l).
Proof.
  intros s r s'. unfold deref. destruct (heap s !! l); intros H; inversion H;
    apply quiet_refl.
Qed.

Lemma edit_whitelist_quiet (l : nat) (f : list Z -> list Z) :
  makes_no_commit (edit_whitelist l f).
Proof.
  apply bind_quiet; [apply deref_quiet|].
  intros d s r s' H. inversion H. now split.
Qed.

Lemma fetchWhitelist_no_commit : makes_no_commit fetchWhitelist.
Proof. intros s r s'. apply fetchWhitelist_quiet. Qed.

Lemma bulk_add_loop_quiet (ids : list Z) (l : nat) :
  forall k0 a0, makes_no_commit (bulk_add_loop l ids k0 a0).
Proof.
  induction ids as [|id ids IH]; intros k0 a0; simpl; [apply ret_quiet|].
  apply bind_quiet; [apply deref_quiet|]. intros d.
  destruct (includes (whitelist d) id); [apply IH|].
  apply bind_quiet; [apply edit_whitelist_quiet | intros _; apply IH].
Qed.

Lemma bulk_remove_loop_quiet (ids : list Z) (l : nat) :
  forall k0 a0, makes_no_commit (bulk_remove_loop l ids k0 a0).
Proof.
  induction ids as [|id ids IH]; intros k0 a0; simpl; [apply ret_quiet|].
  apply bind_quiet; [apply deref_quiet|]. intros d.
  destruct (indexOf (whitelist d) id =? -1); [apply IH|].
  apply bind_quiet; [apply edit_whitelist_quiet | intros _; apply IH].
Qed.

(** A mutation step makes no commit: besides the fetch it only works on
    the heap. *)
Lemma add_mutation_quiet (id : Z) : makes_no_commit (add_mutation id).
Proof.
  apply bind_quiet; [apply fetchWhitelist_no_commit|]. intros wl.
  apply bind_quiet; [apply deref_quiet|]. intros d.
  destruct (includes (whitelist d) id); [apply ret_quiet|].
  apply bind_quiet; [apply edit_whitelist_quiet | intros _; apply ret_quiet].
Qed.

Lemma remove_mutation_quiet (id : Z) : makes_no_commit (remove_mutation id).
Proof.
  apply bind_quiet; [apply fetchWhitelist_no_commit|]. intros wl.
  apply bind_quiet; [apply deref_quiet|]. intros d. cbv zeta.
  destruct (indexOf (whitelist d) id =? -1); [apply ret_quiet|].
  apply bind_quiet; [apply edit_whitelist_quiet | intros _; apply ret_quiet].
Qed.

Lemma bulk_add_mutation_quiet (ids : list Z) : makes_no_commit (bulk_add_mutation ids).
Proof.
  apply bind_quiet; [apply fetchWhitelist_no_commit|]. intros wl.
  apply bind_quiet; [apply bulk_add_loop_quiet | intros r; apply ret_quiet].
Qed.

Lemma bulk_remove_mutation_quiet (ids : list Z) :
  makes_no_commit (bulk_remove_mutation ids).
Proof.
  apply bind_quiet; [apply fetchWhitelist_no_commit|]. intros wl.
  apply bind_quiet; [apply bulk_remove_loop_quiet | intros r; apply ret_quiet].
Qed.

Lemma clear_mutation_quiet : makes_no_commit clear_mutation.
Proof.
  apply bind_quiet; [apply fetchWhitelist_no_commit|]. intros wl.
  apply bind_quiet; [apply deref_quiet|]. intros d. cbv zeta.
  apply bind_quiet; [apply edit_whitelist_quiet | intros _; apply ret_quiet].
Qed.

(** A write makes at most one commit, and exactly one when it succeeds. *)
Lemma updateWhitelist_commits (l : nat) (message : CommitMessage)
    (s s' : State) (r : Res bool) :
  updateWhitelist l message s = (r, s') ->
  (commits (calls s') <= commits (calls s) + 1)%nat /\
  (r = Val true -> commits (calls s') = (commits (calls s) + 1)%nat).
Proof.
  rewrite updateWhitelist_unfold.
  destruct (fetchWhitelist s) as [[e|err] s1] eqn:F;
    destruct (fetchWhitelist_quiet _ _ _ F) as [Q _].
  - destruct (heap s1 !! l) as [d|]; [|intros H; inversion H; subst; split; [lia|congruence]].
    assert (P : forall c, is_put c = true ->
                commits (calls (called c s1)) = (commits (calls s) + 1)%nat).
    { intros c Hc. simpl calls. rewrite commits_app, Q. unfold commits at 2.
      simpl. now rewrite Hc. }
    destruct (next_fault s1).
    + intros H; inversion H; subst. rewrite P by reflexivity. split; [lia|congruence].
    + destruct (sha e =? r_sha (remote s1))%N; intros H; inversion H; subst.
      * change (calls (committed d (sha e) message s1))
          with (calls (called (PutContent d (sha e) message) s1)).
        rewrite P by reflexivity. split; [lia|reflexivity].
      * rewrite P by reflexivity. split; [lia|congruence].
  - intros H; inversion H; subst. split; [lia|congruence].
Qed.

(** ** Requests that change nothing *)

(** Add, Remove, BulkAdd and BulkRemove (and Check) skip the write when
    they have nothing to apply: the answer reports no applied id, no commit
    is made and the remote file is the same. *)
Theorem noop_makes_no_commit (c : Command) (s s' : State) (reply : Reply) :
  (forall user messages, c <> Clear user messages) ->
  handle c s = (Val reply, s') ->
  changes reply = 0%nat ->
  quiet s s'.
Proof.
  intros NC H Z0. destruct c as [u r|u r|u|us r|us r|user ms]; simpl in H.
  - destruct (test_digits u) eqn:T.
    + rewrite (cmd_add_unfold _ _ _ T) in H.
      destruct (add_mutation (parseInt u) s) as [[[l|]|err] s1] eqn:Mu.
      * destruct (updateWhitelist l _ s1) as [[b|err] s2]; inversion H; subst.
        discriminate Z0.
      * inversion H; subst. exact (add_mutation_quiet _ _ _ _ Mu).
      * discriminate H.
    + unfold cmd_add in H. rewrite T in H. inversion H. apply quiet_refl.
  - destruct (test_digits u) eqn:T.
    + rewrite (cmd_remove_unfold _ _ _ T) in H.
      destruct (remove_mutation (parseInt u) s) as [[[l|]|err] s1] eqn:Mu.
      * destruct (updateWhitelist l _ s1) as [[b|err] s2]; inversion H; subst.
        discriminate Z0.
      * inversion H; subst. exact (remove_mutation_quiet _ _ _ _ Mu).
      * discriminate H.
    + unfold cmd_remove in H. rewrite T in H. inversion H. apply quiet_refl.
  - revert H. unfold cmd_check. destruct (negb (test_digits u)).
    + intros H. inversion H. apply quiet_refl.
    + apply bind_quiet; [apply fetchWhitelist_no_commit|]. intros wl.
      apply bind_quiet; [apply deref_quiet | intros d; apply ret_quiet].
  - destruct (parse_ids us) as [|x ids] eqn:P.
    + unfold cmd_bulk_add in H. rewrite P in H. inversion H. apply quiet_refl.
    + rewrite cmd_bulk_add_unfold in H by congruence. rewrite P in H.
      destruct (bulk_add_mutation (x :: ids) s) as [[[l [k a]]|err] s1] eqn:Mu;
        [|discriminate H].
      destruct a as [|y a].
      * inversion H; subst. exact (bulk_add_mutation_quiet _ _ _ _ Mu).
      * destruct (updateWhitelist l _ s1) as [[b|err] s2]; inversion H; subst.
        discriminate Z0.
  - destruct (parse_ids us) as [|x ids] eqn:P.
    + unfold cmd_bulk_remove in H. rewrite P in H. inversion H. apply quiet_refl.
    + rewrite cmd_bulk_remove_unfold in H by congruence. rewrite P in H.
      destruct (bulk_remove_mutation (x :: ids) s) as [[[l [k a]]|err] s1] eqn:Mu;
        [|discriminate H].
      destruct a as [|y a].
      * inversion H; subst. exact (bulk_remove_mutation_quiet _ _ _ _ Mu).
      * destruct (updateWhitelist l _ s1) as [[b|err] s2]; inversion H; subst.
        discriminate Z0.
  - exfalso. exact (NC user ms eq_refl).
Qed.

Lemma noop_makes_no_commit_witness :
  let s := boot remote123 0 [] in
  quiet s (snd (handle (BulkAdd (js "2, 3 ,x") None) s)).
Proof.
  intros s.
  apply (noop_makes_no_commit (BulkAdd (js "2, 3 ,x") None) s _
           (BulkAddResults [] [2; 3])).
  - intros user messages. discriminate.
  - vm_compute. reflexivity.
  - reflexivity.
Defined.

(** C1, where the code departs from it.  Clear of an already empty list,
    once confirmed, applies no change (it reports 0 removed ids) and yet
    makes one commit: the callback of 'clear' calls [updateWhitelist]
    without looking at the old count. *)
Theorem clear_of_empty_list_commits :
  let s := boot (mkRemote (mkDoc [] []) 7%N) 0 [] in
  let run := cmd_clear 9%N [mkMessage 9%N (js "CONFIRM") 1500] s in
  fst run = Val (WhitelistCleared 0) /\
  changes (WhitelistCleared 0) = 0%nat /\
  commits (calls (snd run)) = 1%nat /\
  calls (snd run) = [GetContent; PutContent (mkDoc [] []) 7%N (MsgCleared 0)].
Proof. vm_compute. repeat split. Qed.

(** ** The mutation step and the cache *)

(** C2 (as amended).  The mutation step works in place on the document of
    the cache entry: the document that the handler edits is the one that
    the cache holds, so that after the step the cached document carries the
    new list of the request, for each of the five kinds of request.  It
    still equals the fetched content only when the request left the list as
    it was. *)
Theorem mutation_in_place (s s1 : State) (e : Entry) (d : Doc) :
  fetchWhitelist s = (Val e, s1) ->
  heap s1 !! data e = Some d ->
  cached_doc s1 = Some d /\
  (forall id, cached_doc (snd (add_mutation id s))
              = Some (set_whitelist d (spec_add id (whitelist d)))) /\
  (forall id, cached_doc (snd (remove_mutation id s))
              = Some (set_whitelist d (spec_remove id (whitelist d)))) /\
  (forall ids, cached_doc (snd (bulk_add_mutation ids s))
               = Some (set_whitelist d (fst (fst (spec_bulk_add ids (whitelist d)))))) /\
  (forall ids, cached_doc (snd (bulk_remove_mutation ids s))
               = Some (set_whitelist d (fst (fst (spec_bulk_remove ids (whitelist d)))))) /\
  cached_doc (snd (clear_mutation s)) = Some (set_whitelist d []) /\
  (forall w, Some (set_whitelist d w) = cached_doc s1 <-> w = whitelist d).
Proof.
  intros F Hd.
  pose proof (cached_doc_fetched _ _ _ _ F Hd) as C0.
  pose proof (cached_doc_edited _ _ _ _ F Hd) as C1.
  split; [exact C0|]. split; [|split; [|split; [|split; [|split]]]].
  6: { intros w. rewrite C0. split.
       - intros H. assert (H' : set_whitelist d w = d) by congruence.
         exact (f_equal whitelist H').
       - intros ->. now rewrite set_whitelist_same. }
  - intros id. rewrite (add_mutation_run _ _ _ _ F Hd). unfold spec_add.
    destruct (includes (whitelist d) id); simpl snd.
    + now rewrite set_whitelist_same.
    + apply C1.
  - intros id. rewrite (remove_mutation_run _ _ _ _ F Hd).
    destruct (includes (whitelist d) id) eqn:I; simpl snd.
    + apply C1.
    + apply includes_false in I. rewrite (spec_remove_absent _ _ I).
      now rewrite set_whitelist_same.
  - intros ids. destruct (spec_bulk_add ids (whitelist d)) as [[w' a] k] eqn:E.
    rewrite (bulk_add_mutation_run _ _ _ _ F Hd ids w' a k E). apply C1.
  - intros ids. destruct (spec_bulk_remove ids (whitelist d)) as [[w' a] k] eqn:E.
    rewrite (bulk_remove_mutation_run _ _ _ _ F Hd ids w' a k E). apply C1.
  - rewrite (clear_mutation_run _ _ _ _ F Hd). apply C1.
Qed.

Lemma mutation_in_place_witness :
  let s := boot remote123 0 [] in
  cached_doc (snd (add_mutation 4 s)) = Some (set_whitelist doc123 [1; 2; 3; 4]) /\
  cached_doc (snd (clear_mutation s)) = Some (set_whitelist doc123 []).
Proof.
  intros s.
  destruct (mutation_in_place s (refetched s) (new_entry s) doc123 eq_refl eq_refl)
    as (_ & Ha & _ & _ & _ & Hc & _).
  split; [exact (Ha 4) | exact Hc].
Defined.

(** C2 as the specification states it fails.  With the list [1; 2; 3] in
    the store, the mutation step of Add(4) alone already changes the cached
    document; and when the commit then fails (the store answers 500) the
    cache keeps the list [1; 2; 3; 4], which is not the content that was
    fetched and that the store still holds. *)
Lemma mutation_in_place_counterexample :
  let s := boot remote123 0 [(5%N, None); (5%N, Some (RequestError 500))] in
  let fetched := cached_doc (snd (fetchWhitelist s)) in
  let run := cmd_add (js "4") None s in
  fetched = Some doc123 /\
  cached_doc (snd (add_mutation 4 s)) = Some (set_whitelist doc123 [1; 2; 3; 4]) /\
  cached_doc (snd (add_mutation 4 s)) <> fetched /\
  fst run = Throw update_failed /\
  r_doc (remote (snd run)) = doc123 /\
  cached_doc (snd run) = Some (set_whitelist doc123 [1; 2; 3; 4]) /\
  cached_doc (snd run) <> fetched.
Proof.
  vm_compute. repeat split; congruence.
Qed.

(** ** Remove *)

(** C8.  Remove of an id that the list contains takes out its first
    occurrence and nothing else (what follows it, later occurrences
    included, stays), and the answer reports the id as applied; Remove of an
    id that the list does not contain changes nothing and the answer reports
    the id as skipped. *)
Theorem remove_first_occurrence
    (s s1 : State) (e : Entry) (d : Doc) (userId : jsstring) (reason : option jsstring) :
  test_digits userId = true ->
  fetchWhitelist s = (Val e, s1) ->
  heap s1 !! data e = Some d ->
  let id := parseInt userId in
  (In id (whitelist d) ->
     exists l1 l2,
       whitelist d = l1 ++ id :: l2 /\ ~ In id l1 /\
       remove_mutation id s = (Val (Some (data e)), edited (data e) d (l1 ++ l2) s1) /\
       cached_doc (edited (data e) d (l1 ++ l2) s1) = Some (set_whitelist d (l1 ++ l2)) /\
       forall reply s',
         cmd_remove userId reason s = (Val reply, s') ->
         applied reply = [id] /\ skipped reply = []) /\
  (~ In id (whitelist d) ->
     remove_mutation id s = (Val None, s1) /\
     cmd_remove userId reason s = (Val (NotInWhitelist userId), s1) /\
     applied (NotInWhitelist userId) = [] /\
     skipped (NotInWhitelist userId) = [id]).
Proof.
  intros T F Hd id. split.
  - intros Hin.
    destruct (spec_remove_first id (whitelist d) Hin) as (l1 & l2 & Hw & Hn & Hr).
    exists l1, l2. split; [exact Hw|]. split; [exact Hn|].
    assert (Hm : remove_mutation id s
                 = (Val (Some (data e)), edited (data e) d (l1 ++ l2) s1)).
    { rewrite (remove_mutation_run _ _ _ _ F Hd).
      apply includes_In in Hin. now rewrite Hin, Hr. }
    split; [exact Hm|].
    split; [apply (cached_doc_edited _ _ _ _ F Hd)|].
    intros reply s'. rewrite (cmd_remove_unfold _ _ _ T). fold id. rewrite Hm.
    destruct (updateWhitelist (data e) _ _) as [[b|err] s2]; intros H;
      inversion H; subst. now split.
  - intros Hnot.
    assert (Hm : remove_mutation id s = (Val None, s1)).
    { rewrite (remove_mutation_run _ _ _ _ F Hd).
      apply includes_false in Hnot. now rewrite Hnot. }
    split; [exact Hm|].
    split; [|now split].
    rewrite (cmd_remove_unfold _ _ _ T). fold id. now rewrite Hm.
Qed.

Lemma remove_first_occurrence_witness :
  let s := boot (mkRemote (mkDoc [5; 7; 6; 7] []) 3%N) 0 [] in
  (exists l1 l2,
     [5; 7; 6; 7] = l1 ++ 7 :: l2 /\ ~ In 7 l1 /\
     remove_mutation 7 s
     = (Val (Some 0%nat), edited 0 (mkDoc [5; 7; 6; 7] []) (l1 ++ l2) (refetched s))) /\
  (cmd_remove (js "8") None s = (Val (NotInWhitelist (js "8")), refetched s)).
Proof.
  intros s.
  destruct (remove_first_occurrence s (refetched s) (new_entry s)
              (mkDoc [5; 7; 6; 7] []) (js "7") None eq_refl eq_refl eq_refl)
    as [Hin _].
  destruct (remove_first_occurrence s (refetched s) (new_entry s)
              (mkDoc [5; 7; 6; 7] []) (js "8") None eq_refl eq_refl eq_refl)
    as [_ Hout].
  split.
  - destruct Hin as (l1 & l2 & Hw & Hn & Hm & _).
    + vm_compute. tauto.
    + exists l1, l2. split; [exact Hw|]. split; [exact Hn | exact Hm].
  - apply Hout. vm_compute. intuition discriminate.
Defined.

(** The list that Remove leaves behind, on a list with a duplicate. *)
Example remove_keeps_later_occurrences :
  cached_doc (snd (remove_mutation 7 (boot (mkRemote (mkDoc [5; 7; 6; 7] []) 3%N) 0 [])))
  = Some (mkDoc [5; 6; 7] []).
Proof. reflexivity. Qed.

(** Remove on the empty list: the id is skipped and nothing is committed. *)
Example remove_on_empty_list :
  let run := cmd_remove (js "7") None (boot (mkRemote (mkDoc [] []) 3%N) 0 []) in
  fst run = Val (NotInWhitelist (js "7")) /\
  skipped (NotInWhitelist (js "7")) = [7] /\
  applied (NotInWhitelist (js "7")) = [] /\
  commits (calls (snd run)) = 0%nat.
Proof. vm_compute. repeat split. Qed.

(** ** BulkAdd *)

Lemma spec_bulk_add_cons (id : Z) (ids w : list Z) :
  spec_bulk_add (id :: ids) w =
  (fst (fst (spec_bulk_add ids (spec_add id w))),
   if includes w id then snd (fst (spec_bulk_add ids (spec_add id w)))
   else id :: snd (fst (spec_bulk_add ids (spec_add id w))),
   if includes w id then id :: snd (spec_bulk_add ids (spec_add id w))
   else snd (spec_bulk_add ids (spec_add id w))).
Proof.
  simpl. destruct (spec_bulk_add ids (spec_add id w)) as [[w' a] k].
  now destruct (includes w id).
Qed.

(** The whole 'bulk-add' handler makes at most one commit. *)
Lemma cmd_bulk_add_commits
    (userIds : jsstring) (reason : option jsstring) (s s' : State) (r : Res Reply) :
  cmd_bulk_add userIds reason s = (r, s') ->
  (commits (calls s') <= commits (calls s) + 1)%nat.
Proof.
  destruct (parse_ids userIds) as [|x ids] eqn:P.
  - unfold cmd_bulk_add. rewrite P. intros H. inversion H. lia.
  - rewrite cmd_bulk_add_unfold by congruence. rewrite P.
    destruct (bulk_add_mutation (x :: ids) s) as [[[l [k a]]|err] s1] eqn:Mu;
      destruct (bulk_add_mutation_quiet _ _ _ _ Mu) as [Q _].
    + destruct a as [|y a].
      * intros H. inversion H; subst. lia.
      * destruct (updateWhitelist l _ s1) as [[b|err] s2] eqn:U;
          destruct (updateWhitelist_commits _ _ _ _ _ U) as [B _];
          intros H; inversion H; subst; lia.
    + intros H. inversion H; subst. lia.
Qed.

(** C6.  BulkAdd takes its ids in the given order and applies Add to each
    on the document as the earlier ids of the batch left it (the loop of the
    handler computes [spec_bulk_add]); the handler makes at most one commit
    for the batch; on [1; 2; 3], BulkAdd of 2, 4, 4, 5 applies [4; 5], skips
    [2; 4] and leaves [1; 2; 3; 4; 5]. *)
Theorem bulk_add_in_order
    (s s1 : State) (e : Entry) (d : Doc) (userIds : jsstring) (reason : option jsstring) :
  fetchWhitelist s = (Val e, s1) ->
  heap s1 !! data e = Some d ->
  (forall ids w' a k,
     spec_bulk_add ids (whitelist d) = (w', a, k) ->
     bulk_add_mutation ids s = (Val (data e, (k, a)), edited (data e) d w' s1) /\
     cached_doc (edited (data e) d w' s1) = Some (set_whitelist d w')) /\
  (forall id ids,
     spec_bulk_add (id :: ids) (whitelist d) =
     (fst (fst (spec_bulk_add ids (spec_add id (whitelist d)))),
      if includes (whitelist d) id
      then snd (fst (spec_bulk_add ids (spec_add id (whitelist d))))
      else id :: snd (fst (spec_bulk_add ids (spec_add id (whitelist d)))),
      if includes (whitelist d) id
      then id :: snd (spec_bulk_add ids (spec_add id (whitelist d)))
      else snd (spec_bulk_add ids (spec_add id (whitelist d))))) /\
  (forall reply s' w' a k,
     spec_bulk_add (parse_ids userIds) (whitelist d) = (w', a, k) ->
     cmd_bulk_add userIds reason s = (Val reply, s') ->
     parse_ids userIds <> [] ->
     applied reply = a /\ skipped reply = k) /\
  (forall r s',
     cmd_bulk_add userIds reason s = (r, s') ->
     (commits (calls s') <= commits (calls s) + 1)%nat) /\
  (let run := cmd_bulk_add (js "2,4,4,5") None (boot (mkRemote (mkDoc [1; 2; 3] []) 7%N) 0 []) in
   fst run = Val (BulkAddResults [4; 5] [2; 4]) /\
   whitelist (r_doc (remote (snd run))) = [1; 2; 3; 4; 5] /\
   commits (calls (snd run)) = 1%nat).
Proof.
  intros F Hd. split; [|split; [|split; [|split]]].
  - intros ids w' a k E. split.
    + exact (bulk_add_mutation_run _ _ _ _ F Hd ids w' a k E).
    + apply (cached_doc_edited _ _ _ _ F Hd).
  - intros id ids. apply spec_bulk_add_cons.
  - intros reply s' w' a k E H NE.
    rewrite cmd_bulk_add_unfold in H by assumption.
    rewrite (bulk_add_mutation_run _ _ _ _ F Hd _ w' a k E) in H.
    destruct a as [|y a].
    + inversion H; subst. now split.
    + destruct (updateWhitelist (data e) _ _) as [[b|err] s2]; inversion H; subst.
      now split.
  - intros r s'. apply cmd_bulk_add_commits.
  - vm_compute. repeat split.
Qed.

Lemma bulk_add_in_order_witness :
  let s := boot (mkRemote (mkDoc [1; 2; 3] []) 7%N) 0 [] in
  bulk_add_mutation [2; 4; 4; 5] s
  = (Val (0%nat, ([2; 4], [4; 5])),
     edited 0 (mkDoc [1; 2; 3] []) [1; 2; 3; 4; 5] (refetched s)).
Proof.
  intros s.
  destruct (bulk_add_in_order s (refetched s) (new_entry s) (mkDoc [1; 2; 3] [])
              (js "2,4,4,5") None eq_refl eq_refl) as (H & _).
  exact (proj1 (H [2; 4; 4; 5] [1; 2; 3; 4; 5] [4; 5] [2; 4] eq_refl)).
Defined.

(** ** Runs in which the store does not fail *)

Lemma no_faults_next (s : State) : no_faults s -> next_fault s = None.
Proof.
  unfold no_faults, next_fault. destruct (script s) as [|[dt f] rest]; [reflexivity|].
  intros H. inversion H; subst. assumption.
Qed.

Lemma coherent_sha_ok (s : State) : coherent s -> sha_ok s.
Proof. intros H e He. exact (proj1 (H e He)). Qed.

Lemma fetch_no_faults (s : State) :
  no_faults s -> sha_ok s ->
  exists e s1,
    fetchWhitelist s = (Val e, s1) /\
    sha e = r_sha (remote s) /\ remote s1 = remote s /\ no_faults s1 /\
    (forall l d, heap s !! l = Some d -> heap s1 !! l = Some d).
Proof.
  intros N S.
  destruct (fetchWhitelist s) as [r s1] eqn:F.
  destruct (fetchWhitelist_frame _ _ _ F) as (R & _ & Hh & _ & N1 & V & C).
  destruct (V N) as [e ->]. exists e, s1. split; [reflexivity|].
  split; [|split; [exact R|split; [exact (N1 N)|exact Hh]]].
  destruct (C e eq_refl) as [C1 C2].
  destruct (is_fresh s) eqn:Fr.
  - destruct (fetchWhitelist_cases s) as [(e' & Ce & _ & E)|[(X & _)|(X & _)]];
      try congruence.
    rewrite E in F. inversion F; subst. now apply S.
  - rewrite <- R. exact (proj1 (C2 eq_refl)).
Qed.

Lemma fetch_coherent (s : State) :
  no_faults s -> coherent s ->
  exists e s1,
    fetchWhitelist s = (Val e, s1) /\
    sha e = r_sha (remote s) /\ heap s1 !! data e = Some (r_doc (remote s)) /\
    remote s1 = remote s /\ no_faults s1.
Proof.
  intros N C.
  destruct (fetchWhitelist s) as [r s1] eqn:F.
  destruct (fetchWhitelist_frame _ _ _ F) as (R & _ & Hh & _ & N1 & V & Cv).
  destruct (V N) as [e ->]. exists e, s1. split; [reflexivity|].
  destruct (Cv e eq_refl) as [C1 C2].
  destruct (is_fresh s) eqn:Fr.
  - destruct (fetchWhitelist_cases s) as [(e' & Ce & _ & E)|[(X & _)|(X & _)]];
      try congruence.
    rewrite E in F. inversion F; subst. destruct (C e Ce) as [A B].
    repeat split; auto.
  - destruct (C2 eq_refl) as [A B]. rewrite R in A, B. repeat split; auto.
Qed.

Lemma update_no_faults (s : State) (l : nat) (d : Doc) (message : CommitMessage) :
  no_faults s -> sha_ok s -> heap s !! l = Some d ->
  exists s',
    updateWhitelist l message s = (Val true, s') /\
    r_doc (remote s') = d /\ no_faults s' /\ whitelistCache s' = None.
Proof.
  intros N S Hl.
  destruct (fetch_no_faults s N S) as (e & s1 & F & Hs & R & N1 & Hh).
  rewrite updateWhitelist_unfold, F, (Hh _ _ Hl), (no_faults_next _ N1), R, Hs.
  rewrite N.eqb_refl. eexists. split; [reflexivity|].
  split; [reflexivity|]. split; [|reflexivity].
  unfold no_faults in *. simpl. destruct (script s1); [constructor|].
  now inversion N1.
Qed.










(** ** The ids of the bulk commands *)

Lemma parse_ids_In (userIds : jsstring) (n : Z) :
  In n (parse_ids userIds) <->
  exists tok, In tok (split 44%N userIds) /\
              test_digits (trim tok) = true /\ n = parseInt (trim tok).
Proof.
  unfold parse_ids. rewrite List.in_map_iff. split.
  - intros (t & Hn & Ht). apply List.filter_In in Ht. destruct Ht as [Ht Hd].
    apply List.in_map_iff in Ht. destruct Ht as (tok & <- & Htok).
    exists tok. auto.
  - intros (tok & Htok & Hd & ->). exists (trim tok). split; [reflexivity|].
    apply List.filter_In. split; [|exact Hd].
    apply List.in_map_iff. eauto.
Qed.

Lemma parse_ids_nil (userIds : jsstring) :
  parse_ids userIds = [] <->
  forall tok, In tok (split 44%N userIds) -> test_digits (trim tok) = false.
Proof.
  split.
  - intros H tok Htok. destruct (test_digits (trim tok)) eqn:E; [|reflexivity].
    assert (Hin : In (parseInt (trim tok)) (parse_ids userIds))
      by (apply parse_ids_In; eauto).
    rewrite H in Hin. destruct Hin.
  - intros H. destruct (parse_ids userIds) as [|n l] eqn:E; [reflexivity|].
    assert (Hin : In n (parse_ids userIds)) by (rewrite E; now left).
    apply parse_ids_In in Hin. destruct Hin as (tok & Htok & Hd & _).
    rewrite (H tok Htok) in Hd. discriminate.
Qed.

(** Every id of the batch ends up either applied or skipped. *)
Lemma bulk_add_loop_partition (ids : list Z) (l : nat) :
  forall k0 a0 s k a s',
    bulk_add_loop l ids k0 a0 s = (Val (k, a), s') ->
    Permutation (a ++ k) (ids ++ a0 ++ k0).
Proof.
  induction ids as [|id ids IH]; intros k0 a0 s k a s' H; simpl in H.
  - inversion H; subst. reflexivity.
  - apply bind_inv in H. destruct H as [(d & s1 & _ & H)|(err & _ & H)]; [|discriminate].
    destruct (includes (whitelist d) id).
    + apply IH in H. rewrite H. unfold push. solve_Permutation.
    + apply bind_inv in H. destruct H as [(u & s2 & _ & H)|(err & _ & H)]; [|discriminate].
      apply IH in H. rewrite H. unfold push. solve_Permutation.
Qed.

Lemma bulk_remove_loop_partition (ids : list Z) (l : nat) :
  forall k0 a0 s k a s',
    bulk_remove_loop l ids k0 a0 s = (Val (k, a), s') ->
    Permutation (a ++ k) (ids ++ a0 ++ k0).
Proof.
  induction ids as [|id ids IH]; intros k0 a0 s k a s' H; simpl in H.
  - inversion H; subst. reflexivity.
  - apply bind_inv in H. destruct H as [(d & s1 & _ & H)|(err & _ & H)]; [|discriminate].
    cbv zeta in H. destruct (indexOf (whitelist d) id =? -1).
    + apply IH in H. rewrite H. unfold push. solve_Permutation.
    + apply bind_inv in H. destruct H as [(u & s2 & _ & H)|(err & _ & H)]; [|discriminate].
      apply IH in H. rewrite H. unfold push. solve_Permutation.
Qed.

(** C10.  In the bulk commands each comma-separated token is trimmed and
    the tokens that are not strings of digits are dropped without any
    error: the command is rejected only when no valid token is left, and
    otherwise goes on with the valid ids, each of which ends up applied or
    skipped.  The single commands reject an id that is not a string of
    digits. *)
Theorem bulk_ids_filtered (userIds : jsstring) (reason : option jsstring) (s : State) :
  (forall n, In n (parse_ids userIds) <->
     exists tok, In tok (split 44%N userIds) /\
                 test_digits (trim tok) = true /\ n = parseInt (trim tok)) /\
  ((forall tok, In tok (split 44%N userIds) -> test_digits (trim tok) = false) ->
     cmd_bulk_add userIds reason s = (Val NoValidIds, s) /\
     cmd_bulk_remove userIds reason s = (Val NoValidIds, s)) /\
  ((exists tok, In tok (split 44%N userIds) /\ test_digits (trim tok) = true) ->
     (forall reply s', cmd_bulk_add userIds reason s = (Val reply, s') ->
        exists a k, reply = BulkAddResults a k /\
                    Permutation (a ++ k) (parse_ids userIds)) /\
     (forall reply s', cmd_bulk_remove userIds reason s = (Val reply, s') ->
        exists a k, reply = BulkRemoveResults a k /\
                    Permutation (a ++ k) (parse_ids userIds))) /\
  (forall userId, test_digits userId = false ->
     cmd_add userId reason s = (Val InvalidUserId, s) /\
     cmd_remove userId reason s = (Val InvalidUserId, s)).
Proof.
  split; [apply parse_ids_In|]. split; [|split].
  - intros H. apply parse_ids_nil in H.
    unfold cmd_bulk_add, cmd_bulk_remove. rewrite H. now split.
  - intros (tok & Htok & Hd).
    assert (NE : parse_ids userIds <> []).
    { intros E. rewrite parse_ids_nil in E. rewrite (E tok Htok) in Hd. discriminate. }
    split; intros reply s'.
    + rewrite (cmd_bulk_add_unfold _ _ _ NE). unfold bulk_add_mutation.
      unfold bind at 1. destruct (fetchWhitelist s) as [[e|err] s1]; [|discriminate].
      unfold bind at 1.
      destruct (bulk_add_loop (data e) (parse_ids userIds) [] [] s1)
        as [[[k a]|err] s2] eqn:L; [|discriminate].
      apply bulk_add_loop_partition in L. rewrite !app_nil_r in L.
      unfold ret. destruct a as [|y a].
      * intros H. inversion H; subst. eauto.
      * destruct (updateWhitelist (data e) _ s2) as [[b|err] s3]; intros H;
          inversion H; subst. eauto.
    + rewrite (cmd_bulk_remove_unfold _ _ _ NE). unfold bulk_remove_mutation.
      unfold bind at 1. destruct (fetchWhitelist s) as [[e|err] s1]; [|discriminate].
      unfold bind at 1.
      destruct (bulk_remove_loop (data e) (parse_ids userIds) [] [] s1)
        as [[[k a]|err] s2] eqn:L; [|discriminate].
      apply bulk_remove_loop_partition in L. rewrite !app_nil_r in L.
      unfold ret. destruct a as [|y a].
      * intros H. inversion H; subst. eauto.
      * destruct (updateWhitelist (data e) _ s2) as [[b|err] s3]; intros H;
          inversion H; subst. eauto.
  - intros userId T. unfold cmd_add, cmd_remove. rewrite T. now split.
Qed.

Lemma bulk_ids_filtered_witness :
  let s := boot remote123 0 [] in
  cmd_bulk_add (js "x, ,1 2") None s = (Val NoValidIds, s) /\
  (forall reply s', cmd_bulk_add (js " 12 ,,a3, 007") None s = (Val reply, s') ->
     exists a k, reply = BulkAddResults a k /\
                 Permutation (a ++ k) (parse_ids (js " 12 ,,a3, 007"))) /\
  cmd_add (js "12,x") None s = (Val InvalidUserId, s).
Proof.
  intros s. split; [|split].
  - apply (proj1 (proj2 (bulk_ids_filtered (js "x, ,1 2") None s))).
    intros tok Hin. vm_compute in Hin.
    destruct Hin as [<-|[<-|[<-|[]]]]; reflexivity.
  - apply (proj1 (proj2 (proj2 (bulk_ids_filtered (js " 12 ,,a3, 007") None s)))).
    exists (js " 12 "). split; [vm_compute; tauto | reflexivity].
  - apply (proj2 (proj2 (proj2 (bulk_ids_filtered (js "12,x") None s)))).
    reflexivity.
Defined.

(** The ids that the parser keeps, on a sample input. *)
Example parse_ids_sample : parse_ids (js " 12 ,,a3, 007,5 6") = [12; 7].
Proof. reflexivity. Qed.

(** ** Clear *)

Lemma jsstring_eqb_eq (a b : jsstring) : jsstring_eqb a b = true <-> a = b.
Proof.
  revert b. induction a as [|x a IH]; intros [|y b]; simpl; try (split; congruence).
  rewrite andb_true_iff, N.eqb_eq, IH. split.
  - intros [-> ->]. reflexivity.
  - intros H. inversion H. auto.
Qed.

Lemma confirm_filter_confirms (user : N) (m : Message) :
  confirm_filter user m && (arrival m <? 30000) = true <-> confirms user m.
Proof.
  unfold confirm_filter, confirms.
  rewrite !andb_true_iff, N.eqb_eq, jsstring_eqb_eq, Z.ltb_lt. tauto.
Qed.

(** C7.  Clear is in two phases.  Without a message of the same user that
    reads CONFIRM and arrives before the 30 s of the collector, the
    operation is cancelled and the state is left as it was (no edit, no
    call, no commit); whenever the command changes the state or answers
    anything else than the cancellation, such a message arrived; and when
    one arrived, the callback (fetch, clear, commit) runs at the arrival of
    such a message. *)
Theorem clear_needs_confirmation (user : N) (messages : list Message) (s : State) :
  ((forall m, In m messages -> ~ confirms user m) ->
     cmd_clear user messages s = (Val ClearCancelled, s)) /\
  (forall r s',
     cmd_clear user messages s = (r, s') ->
     r <> Val ClearCancelled \/ s' <> s ->
     exists m, In m messages /\ confirms user m) /\
  ((exists m, In m messages /\ confirms user m) ->
     exists m, In m messages /\ confirms user m /\
       cmd_clear user messages s
       = try_catch on_collect (fun e => ret (UnhandledRejection e))
           (at_time (clock s + arrival m) s)).
Proof.
  unfold cmd_clear, createMessageCollector.
  destruct (List.find (fun m => confirm_filter user m && (arrival m <? 30000)) messages)
    as [m|] eqn:E.
  - apply List.find_some in E. destruct E as [Hin Hc].
    apply confirm_filter_confirms in Hc.
    split; [|split].
    + intros H. exfalso. exact (H m Hin Hc).
    + intros r s' _ _. eauto.
    + intros _. exists m. split; [exact Hin|]. split; [exact Hc|]. reflexivity.
  - split; [|split].
    + reflexivity.
    + intros r s' H [Hr|Hs]; inversion H; subst; congruence.
    + intros (m & Hin & Hc). exfalso.
      apply confirm_filter_confirms in Hc.
      pose proof (List.find_none _ _ E m Hin) as Hf. simpl in Hf. congruence.
Qed.

Lemma clear_needs_confirmation_witness :
  let s := boot (mkRemote (mkDoc [10; 20] []) 7%N) 0 [] in
  cmd_clear 9%N [mkMessage 8%N (js "CONFIRM") 100;
                 mkMessage 9%N (js "confirm") 200;
                 mkMessage 9%N (js "CONFIRM") 30000] s
  = (Val ClearCancelled, s).
Proof.
  intros s. apply (proj1 (clear_needs_confirmation 9%N _ s)).
  intros m Hin (Ha & Hc & Ht).
  destruct Hin as [<-|[<-|[<-|[]]]]; simpl in *; try discriminate; lia.
Defined.

(** A confirmed Clear: [10; 20] becomes the empty list with one commit
    whose message carries the old count. *)
Example clear_confirmed :
  let s := boot (mkRemote (mkDoc [10; 20] []) 7%N) 0 [] in
  let run := cmd_clear 9%N [mkMessage 9%N (js "CONFIRM") 2500] s in
  fst run = Val (WhitelistCleared 2) /\
  whitelist (r_doc (remote (snd run))) = [] /\
  calls (snd run) = [GetContent; PutContent (mkDoc [] []) 7%N (MsgCleared 2)].
Proof. vm_compute. repeat split. Qed.

(** * Further properties of the code *)

(** ** The pages of 'list' *)

Lemma firstn_plus {A} (a b : nat) (l : list A) :
  List.firstn (a + b) l = List.firstn a l ++ List.firstn b (List.skipn a l).
Proof.
  revert l. induction a as [|a IH]; intros l; [reflexivity|].
  destruct l as [|x l]; simpl.
  - now destruct b.
  - now rewrite IH.
Qed.

Lemma slice_chunk (l : list Z) (k : nat) :
  (k < length l)%nat ->
  slice l (Z.of_nat k) (Z.of_nat k + 20) = List.firstn 20 (List.skipn k l).
Proof.
  intros Hk. unfold slice.
  assert (H1 : (Z.of_nat k <? 0) = false) by (apply Z.ltb_ge; lia).
  assert (H2 : (Z.of_nat k + 20 <? 0) = false) by (apply Z.ltb_ge; lia).
  rewrite H1, H2.
  replace (Z.min (Z.of_nat k) (Z.of_nat (length l))) with (Z.of_nat k) by lia.
  rewrite Nat2Z.id.
  assert (Hs : length (List.skipn k l) = (length l - k)%nat) by apply List.length_skipn.
  destruct (Z.le_gt_cases (Z.of_nat k + 20) (Z.of_nat (length l))) as [Hle|Hgt].
  - replace (Z.min (Z.of_nat k + 20) (Z.of_nat (length l)) - Z.of_nat k) with 20 by lia.
    reflexivity.
  - replace (Z.to_nat (Z.min (Z.of_nat k + 20) (Z.of_nat (length l)) - Z.of_nat k))
      with (length (List.skipn k l)) by lia.
    rewrite List.firstn_all. symmetry. apply List.firstn_all2. lia.
Qed.

Lemma skipn_nonempty {A} (k : nat) (l : list A) :
  (k < length l)%nat -> List.firstn 20 (List.skipn k l) <> [].
Proof.
  intros Hk E. apply (f_equal (@length A)) in E.
  rewrite List.length_firstn, List.length_skipn in E.
  change (length (@nil A)) with 0%nat in E. lia.
Qed.

(** The invariant of the loop of 'list': after [length chunks] turns the
    index is [20 * length chunks] and the chunks are the successive runs of
    20 ids of the list. *)
Lemma chunk_loop_inv (fuel : nat) (l : list Z) :
  forall chunks : list (list Z),
    (length l - 20 * length chunks <= fuel)%nat ->
    (20 * length chunks < length l + 20)%nat ->
    (forall j c, chunks !! j = Some c -> c = List.firstn 20 (List.skipn (20 * j) l)) ->
    concat chunks = List.firstn (20 * length chunks) l ->
    let r := chunk_loop fuel l (Z.of_nat (20 * length chunks)) chunks in
    (forall j c, r !! j = Some c -> c = List.firstn 20 (List.skipn (20 * j) l)) /\
    concat r = l /\
    (length l <= 20 * length r < length l + 20)%nat.
Proof.
  induction fuel as [|fuel IH]; intros chunks Hf Hlast Hc Hcat; cbv zeta;
    cbn [chunk_loop].
  - split; [exact Hc|]. split; [|lia].
    rewrite Hcat. apply List.firstn_all2. lia.
  - destruct (Z.of_nat (20 * length chunks) <? Z.of_nat (length l)) eqn:E.
    + apply Z.ltb_lt in E.
      assert (Hk : (20 * length chunks < length l)%nat) by lia.
      set (c := slice l (Z.of_nat (20 * length chunks)) (Z.of_nat (20 * length chunks) + 20)).
      assert (Hslice : c = List.firstn 20 (List.skipn (20 * length chunks) l))
        by (apply slice_chunk; exact Hk).
      assert (Hlen : length (chunks ++ [c]) = S (length chunks))
        by (rewrite length_app; simpl; lia).
      replace (Z.of_nat (20 * length chunks) + 20)
        with (Z.of_nat (20 * length (chunks ++ [c]))) by lia.
      apply (IH (chunks ++ [c])).
      * lia.
      * lia.
      * intros j x Hj. destruct (lookup_app_Some chunks [c] j x) as [Hsplit _].
        destruct (Hsplit Hj) as [Hin|[Hge Hin]].
        -- now apply Hc.
        -- destruct (j - length chunks)%nat as [|n] eqn:En; simpl in Hin; [|discriminate].
           inversion Hin; subst x. replace j with (length chunks) by lia.
           exact Hslice.
      * rewrite concat_app, Hcat, Hlen. cbn [concat]. rewrite app_nil_r, Hslice.
        replace (20 * S (length chunks))%nat with (20 * length chunks + 20)%nat by lia.
        symmetry. apply firstn_plus.
    + apply Z.ltb_ge in E. split; [exact Hc|]. split; [|lia].
      rewrite Hcat. apply List.firstn_all2. lia.
Qed.

Lemma mapi_from_lookup {A B} (f : nat -> A -> B) (l : list A) :
  forall index j y,
    mapi_from f index l !! j = Some y ->
    exists x, l !! j = Some x /\ y = f (index + j)%nat x.
Proof.
  induction l as [|x l IH]; intros index j y H; simpl in H; [discriminate|].
  destruct j as [|j]; simpl in H.
  - inversion H. exists x. split; [reflexivity|]. now rewrite Nat.add_0_r.
  - destruct (IH _ _ _ H) as (x' & Hx & ->). exists x'. split; [exact Hx|].
    f_equal. lia.
Qed.

Lemma mapi_from_ids {A} (f : nat -> list Z -> A) (g : A -> list Z) (l : list (list Z)) :
  (forall i c, g (f i c) = c) ->
  forall index, List.map g (mapi_from f index l) = l.
Proof.
  intros Hg. induction l as [|x l IH]; intros index; simpl; [reflexivity|].
  now rewrite Hg, IH.
Qed.

(** 'list' on a document that holds ids: the pages are the successive runs
    of 20 ids of the list (so that they are not empty, put together they
    give the list back, and there are [ceil (n / 20)] of them), numbered
    from 1, each with the number of pages and the total; on an empty list
    the answer is the "empty" message.  The state is the one left by the
    fetch. *)
Theorem list_pages (s s1 : State) (e : Entry) (d : Doc) :
  fetchWhitelist s = (Val e, s1) ->
  heap s1 !! data e = Some d ->
  (whitelist d = [] -> cmd_list s = (Val ListEmpty, s1)) /\
  (whitelist d <> [] ->
     exists pages,
       cmd_list s = (Val (ListPages pages), s1) /\
       concat (List.map page_ids pages) = whitelist d /\
       (length (whitelist d) <= 20 * length pages < length (whitelist d) + 20)%nat /\
       forall j p, pages !! j = Some p ->
         page_ids p = List.firstn 20 (List.skipn (20 * j) (whitelist d)) /\
         page_ids p <> [] /\
         page_number p = S j /\
         page_count p = length pages /\
         page_total p = length (whitelist d)).
Proof.
  intros F Hd. unfold cmd_list. run F. run (deref_ok _ _ _ Hd). split.
  - intros ->. reflexivity.
  - intros NE. destruct (whitelist d) as [|x w] eqn:W; [congruence|].
    change (length (x :: w) =? 0)%nat with false. cbv iota.
    set (l := x :: w) in *.
    destruct (chunk_loop_inv (length l) l []) as (Hc & Hcat & Hn);
      [simpl; lia | simpl; lia | intros j c Hj; discriminate Hj | reflexivity |].
    change (chunk_loop (length l) l (Z.of_nat (20 * length (@nil (list Z)))) [])
      with (chunks_of l) in *.
    eexists. split; [reflexivity|].
    assert (Hlen : forall (f : nat -> list Z -> Page) (cs : list (list Z)) index,
               length (mapi_from f index cs) = length cs).
    { intros f cs. induction cs as [|c cs IH]; intros index; simpl; [reflexivity|].
      now rewrite IH. }
    split; [|split].
    + rewrite (mapi_from_ids _ page_ids); [exact Hcat | reflexivity].
    + rewrite Hlen. exact Hn.
    + intros j p Hp. apply mapi_from_lookup in Hp. destruct Hp as (c & Hj & ->).
      simpl. rewrite Hlen. pose proof (Hc j c Hj) as Hcj.
      split; [exact Hcj|]. split; [|split; [lia | split; reflexivity]].
      rewrite Hcj. apply skipn_nonempty.
      apply lookup_lt_Some in Hj. lia.
Qed.

Lemma list_pages_witness :
  let s := boot (mkRemote (mkDoc (List.map Z.of_nat (List.seq 1 45)) []) 7%N) 0 [] in
  exists pages,
    cmd_list s = (Val (ListPages pages), refetched s) /\
    (45 <= 20 * length pages < 45 + 20)%nat.
Proof.
  intros s.
  destruct (list_pages s (refetched s) (new_entry s)
              (mkDoc (List.map Z.of_nat (List.seq 1 45)) []) eq_refl eq_refl)
    as [_ H].
  destruct H as (pages & Hrun & _ & Hn & _); [discriminate|].
  exists pages. split; [exact Hrun | exact Hn].
Defined.

(** ** The read-only commands *)

Section Frames.

Variable R : State -> State -> Prop.
Hypothesis R_refl : forall s, R s s.
Hypothesis R_trans : forall s s1 s2, R s s1 -> R s1 s2 -> R s s2.

Lemma frames_ret {A} (a : A) : frames R (ret a).
Proof. intros s r s' H. inversion H. apply R_refl. Qed.

Lemma frames_bind {A B} (m : M A) (k : A -> M B) :
  frames R m -> (forall a, frames R (k a)) -> frames R (bind m k).
Proof.
  intros Hm Hk s r s' H. apply bind_inv in H.
  destruct H as [(a & s1 & H1 & H2)|(err & H1 & _)].
  - exact (R_trans _ _ _ (Hm _ _ _ H1) (Hk _ _ _ _ H2)).
  - exact (Hm _ _ _ H1).
Qed.

Lemma frames_deref (l : nat) : frames R (deref l).
Proof.
  intros s r s'. unfold deref. destruct (heap s !! l); intros H; inversion H;
    apply R_refl.
Qed.

End Frames.

Lemma read_only_refl (s : State) : read_only s s.
Proof. split; [apply quiet_refl | intros l d H; exact H]. Qed.

Lemma read_only_trans (s s1 s2 : State) :
  read_only s s1 -> read_only s1 s2 -> read_only s s2.
Proof.
  intros [Q1 D1] [Q2 D2]. split; [exact (quiet_trans _ _ _ Q1 Q2)|].
  intros l d H. apply D2, D1, H.
Qed.

Lemma fetchWhitelist_read_only : frames read_only fetchWhitelist.
Proof.
  intros s r s' H. split; [exact (fetchWhitelist_quiet _ _ _ H)|].
  destruct (fetchWhitelist_frame _ _ _ H) as (_ & _ & Hd & _). exact Hd.
Qed.

(** A fetch on a fresh cache, then a read of its document, changes
    nothing at all. *)
Lemma fresh_read_is_silent {A} (k : Entry -> Doc -> A) (s : State) :
  is_fresh s = true ->
  forall r s',
    (wl <- fetchWhitelist ;; d <- deref (data wl) ;; ret (k wl d)) s = (r, s') ->
    s' = s.
Proof.
  intros Fr r s'.
  destruct (fetchWhitelist_cases s) as [(e & C & _ & E)|[(X & _)|(X & _)]];
    try congruence.
  run E. unfold bind, deref, ret. destruct (heap s !! data e); intros H; now inversion H.
Qed.

(** 'check', 'list', 'count' and 'backup' are read-only: whatever their
    outcome they make no commit, leave the remote file as it is and leave
    every document of the heap (the cached one included) as it is; and on a
    cache entry younger than the TTL they do not even call the store: the
    state is not changed at all. *)
Theorem read_commands_are_read_only (userId iso : jsstring) :
  (frames read_only (cmd_check userId) /\
   frames read_only cmd_list /\
   frames read_only cmd_count /\
   frames read_only (cmd_backup iso)) /\
  (forall s, is_fresh s = true ->
     snd (cmd_check userId s) = s /\
     snd (cmd_list s) = s /\
     snd (cmd_count s) = s /\
     snd (cmd_backup iso s) = s).
Proof.
  assert (Hb : forall A (k : Entry -> Doc -> M A),
             (forall wl d, frames read_only (k wl d)) ->
             frames read_only (wl <- fetchWhitelist ;; d <- deref (data wl) ;; k wl d)).
  { intros A k Hk.
    apply (frames_bind _ read_only_trans); [apply fetchWhitelist_read_only|].
    intros wl. apply (frames_bind _ read_only_trans);
      [apply (frames_deref _ read_only_refl) | intros d; apply Hk]. }
  split.
  - split; [|split; [|split]].
    + unfold cmd_check. destruct (negb (test_digits userId));
        [apply (frames_ret _ read_only_refl)|].
      apply (Hb _ (fun wl d => ret _)). intros wl d. apply (frames_ret _ read_only_refl).
    + unfold cmd_list. apply (Hb _ (fun wl d => _)). intros wl d. cbv zeta.
      destruct (length (whitelist d) =? 0)%nat; apply (frames_ret _ read_only_refl).
    + unfold cmd_count. apply (Hb _ (fun wl d => ret _)). intros wl d.
      apply (frames_ret _ read_only_refl).
    + unfold cmd_backup. apply (Hb _ (fun wl d => ret _)). intros wl d.
      apply (frames_ret _ read_only_refl).
  - intros s Fr. split; [|split; [|split]].
    + unfold cmd_check. destruct (negb (test_digits userId)); [reflexivity|].
      match goal with |- snd (?m s) = s => destruct (m s) as [r s'] eqn:E end.
      exact (fresh_read_is_silent (fun wl d => _) s Fr r s' E).
    + unfold cmd_list. match goal with |- snd (?m s) = s => destruct (m s) as [r s'] eqn:E end.
      refine (fresh_read_is_silent
                (fun wl d => if (length (whitelist d) =? 0)%nat then ListEmpty else _)
                s Fr r s' _).
      rewrite <- E. unfold bind. destruct (fetchWhitelist s) as [[wl|err] s1]; [|reflexivity].
      destruct (deref (data wl) s1) as [[d|err] s2]; [|reflexivity].
      cbv zeta. now destruct (length (whitelist d) =? 0)%nat.
    + unfold cmd_count. match goal with |- snd (?m s) = s => destruct (m s) as [r s'] eqn:E end.
      exact (fresh_read_is_silent (fun wl d => _) s Fr r s' E).
    + unfold cmd_backup. match goal with |- snd (?m s) = s => destruct (m s) as [r s'] eqn:E end.
      exact (fresh_read_is_silent (fun wl d => _) s Fr r s' E).
Qed.

Lemma read_commands_are_read_only_witness :
  let s := at_time 500 (refetched (boot remote123 0 [])) in
  snd (cmd_count s) = s /\ snd (cmd_list s) = s.
Proof.
  intros s.
  destruct (proj2 (read_commands_are_read_only (js "1") (js "2026-01-01T00:00:00.000Z"))
              s eq_refl) as (_ & Hl & Hc & _).
  split; [exact Hc | exact Hl].
Defined.

(** ** What the mutations do to the list *)

Lemma spec_add_NoDup (id : Z) (w : list Z) : NoDup w -> NoDup (spec_add id w).
Proof.
  intros H. unfold spec_add. destruct (includes w id) eqn:I; [exact H|].
  apply includes_false in I. apply NoDup_app. split; [exact H|].
  split; [|apply NoDup_singleton].
  intros x Hx Hx'. apply list_elem_of_In in Hx, Hx'. simpl in Hx'.
  destruct Hx' as [<-|[]]. contradiction.
Qed.

Lemma spec_remove_In (id x : Z) (w : list Z) : In x (spec_remove id w) -> In x w.
Proof.
  induction w as [|y w IH]; simpl; [tauto|].
  destruct (y =? id); simpl; tauto.
Qed.

Lemma spec_remove_NoDup (id : Z) (w : list Z) : NoDup w -> NoDup (spec_remove id w).
Proof.
  induction w as [|y w IH]; simpl; intros H; [exact H|].
  apply NoDup_cons in H. destruct H as [Hy Hw].
  destruct (y =? id); [exact Hw|].
  apply NoDup_cons. split; [|now apply IH].
  intros Hin. apply Hy. apply list_elem_of_In. apply list_elem_of_In in Hin.
  now apply spec_remove_In with id.
Qed.

Lemma spec_remove_gone (id : Z) (w : list Z) : NoDup w -> ~ In id (spec_remove id w).
Proof.
  induction w as [|y w IH]; simpl; intros H; [tauto|].
  apply NoDup_cons in H. destruct H as [Hy Hw].
  destruct (y =? id) eqn:E.
  - apply Z.eqb_eq in E. subst y. intros Hin. apply Hy. now apply list_elem_of_In.
  - apply Z.eqb_neq in E. simpl. intros [H|H]; [congruence|]. now apply IH.
Qed.

Lemma spec_remove_length (id : Z) (w : list Z) :
  In id w -> S (length (spec_remove id w)) = length w.
Proof.
  induction w as [|y w IH]; simpl; [tauto|]. intros H.
  destruct (y =? id) eqn:E; [reflexivity|].
  apply Z.eqb_neq in E. destruct H as [H|H]; [congruence|].
  simpl. now rewrite IH.
Qed.

Lemma spec_remove_other (id x : Z) (w : list Z) :
  x <> id -> In x w -> In x (spec_remove id w).
Proof.
  intros Hne. induction w as [|y w IH]; simpl; [tauto|].
  destruct (y =? id) eqn:E.
  - apply Z.eqb_eq in E. subst y. intros [H|H]; [congruence | exact H].
  - simpl. tauto.
Qed.

Lemma spec_remove_after_add (id : Z) (w : list Z) :
  ~ In id w -> spec_remove id (w ++ [id]) = w.
Proof.
  induction w as [|y w IH]; simpl; intros H.
  - now rewrite Z.eqb_refl.
  - destruct (y =? id) eqn:E.
    + apply Z.eqb_eq in E. tauto.
    + f_equal. apply IH. tauto.
Qed.

(** The shape of a bulk add: the applied ids are appended, in order. *)
Lemma spec_bulk_add_shape (ids : list Z) :
  forall w w' a k,
    spec_bulk_add ids w = (w', a, k) ->
    w' = w ++ a /\ NoDup a /\
    (forall x, In x a -> In x ids /\ ~ In x w) /\
    (forall x, In x k -> In x ids /\ In x w') /\
    (forall x, In x ids -> In x w') /\
    (NoDup w -> NoDup w').
Proof.
  induction ids as [|id ids IH]; intros w w' a k H; simpl in H.
  - inversion H; subst. rewrite app_nil_r.
    split; [reflexivity|]. split; [constructor|]. split; [intros x []|].
    split; [intros x []|]. split; [intros x []|]. auto.
  - destruct (spec_bulk_add ids (spec_add id w)) as [[w1 a1] k1] eqn:E.
    destruct (IH _ _ _ _ E) as (Hw & Hnd & Ha & Hk & Hi & Hn).
    unfold spec_add in *. destruct (includes w id) eqn:I; inversion H; subst.
    + apply includes_In in I.
      split; [reflexivity|]. split; [exact Hnd|].
      split; [intros x Hx; destruct (Ha x Hx); split; [now right | assumption]|].
      split.
      { intros x [<-|Hx].
        - split; [now left | apply in_or_app; now left].
        - destruct (Hk x Hx). split; [now right | assumption]. }
      split; [|exact Hn].
      intros x [<-|Hx]; [apply in_or_app; now left | now apply Hi].
    + apply includes_false in I.
      split; [now rewrite <- app_assoc|].
      split.
      { apply NoDup_cons. split; [|exact Hnd].
        intros Hin. apply list_elem_of_In in Hin. destruct (Ha id Hin) as [_ Hnot].
        apply Hnot, in_or_app. right. now left. }
      split.
      { intros x [<-|Hx]; [split; [now left | exact I]|].
        destruct (Ha x Hx) as [H1 H2]. split; [now right|].
        intros Hin. apply H2, in_or_app. now left. }
      split; [intros x Hx; destruct (Hk x Hx); split; [now right | assumption]|].
      split.
      { intros x [<-|Hx]; [|now apply Hi].
        apply in_or_app. left. apply in_or_app. right. now left. }
      intros Hnw. apply Hn. apply NoDup_app. split; [exact Hnw|].
      split; [|apply NoDup_singleton].
      intros x Hx Hx'. apply list_elem_of_In in Hx, Hx'. simpl in Hx'.
      destruct Hx' as [<-|[]]. contradiction.
Qed.

(** The shape of a bulk remove: one element leaves the list for each
    applied id, and nothing enters it. *)
Lemma spec_bulk_remove_shape (ids : list Z) :
  forall w w' a k,
    spec_bulk_remove ids w = (w', a, k) ->
    (length w' + length a = length w)%nat /\
    (forall x, In x w' -> In x w) /\
    (forall x, In x k -> ~ In x w') /\
    (forall x, In x w -> ~ In x ids -> In x w') /\
    (NoDup w -> NoDup w' /\ forall x, In x ids -> ~ In x w').
Proof.
  induction ids as [|id ids IH]; intros w w' a k H; simpl in H.
  - inversion H; subst. split; [simpl; lia|]. split; [auto|].
    split; [intros x []|]. split; [auto|]. intros Hn. split; [exact Hn|]. intros x [].
  - destruct (spec_bulk_remove ids (spec_remove id w)) as [[w1 a1] k1] eqn:E.
    destruct (IH _ _ _ _ E) as (Hl & Hsub & Hk & Hkeep & Hn).
    assert (Hsub' : forall x, In x w1 -> In x w)
      by (intros x Hx; apply spec_remove_In with id; now apply Hsub).
    assert (Hkeep' : forall x, In x w -> ~ In x (id :: ids) -> In x w1).
    { intros x Hx Hnot. apply Hkeep; [|intros Hin; apply Hnot; now right].
      apply spec_remove_other; [|exact Hx]. intros ->. apply Hnot. now left. }
    assert (Hn' : NoDup w -> NoDup w1 /\ forall x, In x (id :: ids) -> ~ In x w1).
    { intros Hnw. destruct (Hn (spec_remove_NoDup id w Hnw)) as [H1 H2].
      split; [exact H1|]. intros x [<-|Hx]; [|now apply H2].
      intros Hin. apply (spec_remove_gone id w Hnw). now apply Hsub. }
    destruct (includes w id) eqn:I; inversion H; subst.
    + apply includes_In in I. pose proof (spec_remove_length id w I) as L.
      split; [simpl; lia|]. split; [exact Hsub'|]. split; [exact Hk|].
      split; [exact Hkeep' | exact Hn'].
    + apply includes_false in I. rewrite (spec_remove_absent _ _ I) in *.
      split; [exact Hl|]. split; [exact Hsub|].
      split; [|split; [exact Hkeep' | exact Hn']].
      intros x [<-|Hx]; [|now apply Hk].
      intros Hin. apply I. now apply Hsub.
Qed.

Lemma filter_filter_comm (p q : Z -> bool) (l : list Z) :
  List.filter p (List.filter q l) = List.filter q (List.filter p l).
Proof.
  induction l as [|x l IH]; [reflexivity|]. simpl.
  destruct (q x) eqn:Q; destruct (p x) eqn:P; simpl; rewrite ?Q, ?P, IH; reflexivity.
Qed.

Lemma filter_absorb (p q : Z -> bool) (l : list Z) :
  (forall x, q x = false -> p x = false) ->
  List.filter p (List.filter q l) = List.filter p l.
Proof.
  intros H. induction l as [|x l IH]; [reflexivity|]. simpl.
  destruct (q x) eqn:Q; simpl.
  - destruct (p x); now rewrite IH.
  - now rewrite (H x Q), IH.
Qed.

Lemma keep_first_filter (p : Z -> bool) (l : list Z) :
  keep_first (List.filter p l) = List.filter p (keep_first l).
Proof.
  induction l as [|x l IH]; [reflexivity|]. simpl.
  destruct (p x) eqn:P; simpl.
  - rewrite ?P, IH. f_equal. apply filter_filter_comm.
  - rewrite ?P, IH. symmetry. apply filter_absorb.
    intros y Hy. apply negb_false_iff, Z.eqb_eq in Hy. now subst y.
Qed.

Lemma filter_both (p q : Z -> bool) (l : list Z) :
  List.filter p (List.filter q l) = List.filter (fun x => q x && p x) l.
Proof.
  induction l as [|x l IH]; [reflexivity|]. simpl.
  destruct (q x) eqn:Q; simpl; [destruct (p x)|]; now rewrite IH.
Qed.

(** The ids that a bulk add applies are the ids of the request that the
    list does not hold, each at its first occurrence, in the order of the
    request; every id of the request is either applied or skipped. *)
Lemma spec_bulk_add_order (ids : list Z) :
  forall w w' a k,
    spec_bulk_add ids w = (w', a, k) ->
    a = keep_first (List.filter (fun x => negb (includes w x)) ids) /\
    (length a + length k = length ids)%nat.
Proof.
  induction ids as [|id ids IH]; intros w w' a k H; simpl in H.
  - inversion H; subst. now split.
  - destruct (spec_bulk_add ids (spec_add id w)) as [[w1 a1] k1] eqn:E.
    destruct (IH _ _ _ _ E) as [Ha Hl]. clear IH E.
    unfold spec_add in *. cbn [List.filter].
    destruct (includes w id) eqn:I; cbn [negb];
      inversion H; subst w' a k; clear H.
    + split; [exact Ha | simpl; lia].
    + split; [|simpl; lia]. cbn [keep_first]. f_equal. rewrite Ha.
      rewrite <- keep_first_filter, filter_both. f_equal.
      apply List.filter_ext. intros x. fold (push w id).
      rewrite includes_push, negb_orb. f_equal. f_equal. apply Z.eqb_sym.
Qed.

(** BulkAdd appends: the ids it applies are the ids of the request
    that the list did not hold, each taken once at its first occurrence and
    in the order of the request ([keep_first] of the filtered request); they
    are added at the end of the list and the rest of the list is left as it
    was; the ids it skips are ids of the request that the list holds; every
    id of the request is applied or skipped and is in the list
    afterwards. *)
Theorem bulk_add_appends (s s1 : State) (e : Entry) (d : Doc) (ids : list Z) :
  fetchWhitelist s = (Val e, s1) ->
  heap s1 !! data e = Some d ->
  exists a k,
    bulk_add_mutation ids s
    = (Val (data e, (k, a)), edited (data e) d (whitelist d ++ a) s1) /\
    cached_doc (edited (data e) d (whitelist d ++ a) s1)
    = Some (set_whitelist d (whitelist d ++ a)) /\
    a = keep_first (List.filter (fun x => negb (includes (whitelist d) x)) ids) /\
    (length a + length k = length ids)%nat /\
    NoDup a /\
    (forall x, In x a -> In x ids /\ ~ In x (whitelist d)) /\
    (forall x, In x k -> In x ids /\ In x (whitelist d ++ a)) /\
    (forall x, In x ids -> In x (whitelist d ++ a)).
Proof.
  intros F Hd.
  destruct (spec_bulk_add ids (whitelist d)) as [[w' a] k] eqn:E.
  destruct (spec_bulk_add_shape _ _ _ _ _ E) as (-> & Hnd & Ha & Hk & Hi & _).
  destruct (spec_bulk_add_order _ _ _ _ _ E) as [Ho Hl].
  exists a, k. split; [exact (bulk_add_mutation_run _ _ _ _ F Hd ids _ a k E)|].
  split; [apply (cached_doc_edited _ _ _ _ F Hd)|].
  split; [exact Ho|]. split; [exact Hl|]. auto.
Qed.

Lemma bulk_add_appends_witness :
  let s := boot (mkRemote (mkDoc [1; 2; 3] []) 7%N) 0 [] in
  exists k,
    bulk_add_mutation [9; 2; 9; 8] s
    = (Val (0%nat, (k, [9; 8])),
       edited 0 (mkDoc [1; 2; 3] []) ([1; 2; 3] ++ [9; 8]) (refetched s)).
Proof.
  intros s.
  destruct (bulk_add_appends s (refetched s) (new_entry s) (mkDoc [1; 2; 3] [])
              [9; 2; 9; 8] eq_refl eq_refl) as (a & k & H & _ & Ho & _).
  exists k. rewrite Ho in H. exact H.
Defined.

Lemma cmd_bulk_remove_commits
    (userIds : jsstring) (reason : option jsstring) (s s' : State) (r : Res Reply) :
  cmd_bulk_remove userIds reason s = (r, s') ->
  (commits (calls s') <= commits (calls s) + 1)%nat.
Proof.
  destruct (parse_ids userIds) as [|x ids] eqn:P.
  - unfold cmd_bulk_remove. rewrite P. intros H. inversion H. lia.
  - rewrite cmd_bulk_remove_unfold by congruence. rewrite P.
    destruct (bulk_remove_mutation (x :: ids) s) as [[[l [k a]]|err] s1] eqn:Mu;
      destruct (bulk_remove_mutation_quiet _ _ _ _ Mu) as [Q _].
    + destruct a as [|y a].
      * intros H. inversion H; subst. lia.
      * destruct (updateWhitelist l _ s1) as [[b|err] s2] eqn:U;
          destruct (updateWhitelist_commits _ _ _ _ _ U) as [B _];
          intros H; inversion H; subst; lia.
    + intros H. inversion H; subst. lia.
Qed.

(** BulkRemove takes its ids in the given order and applies Remove to
    each on the document as the earlier ids left it: one element leaves the
    list for each applied id (an id given twice takes out two occurrences
    when the list has them), nothing enters the list, the ids that are not
    asked for stay, a skipped id is not in the resulting list, and on a
    list without duplicates no requested id is left.  The handler makes at
    most one commit for the batch. *)
Theorem bulk_remove_in_order
    (s s1 : State) (e : Entry) (d : Doc) (ids : list Z) :
  fetchWhitelist s = (Val e, s1) ->
  heap s1 !! data e = Some d ->
  (exists w' a k,
     spec_bulk_remove ids (whitelist d) = (w', a, k) /\
     bulk_remove_mutation ids s = (Val (data e, (k, a)), edited (data e) d w' s1) /\
     cached_doc (edited (data e) d w' s1) = Some (set_whitelist d w') /\
     (length w' + length a = length (whitelist d))%nat /\
     (forall x, In x w' -> In x (whitelist d)) /\
     (forall x, In x (whitelist d) -> ~ In x ids -> In x w') /\
     (forall x, In x k -> ~ In x w') /\
     (NoDup (whitelist d) -> NoDup w' /\ forall x, In x ids -> ~ In x w')) /\
  (forall userIds reason r s',
     cmd_bulk_remove userIds reason s = (r, s') ->
     (commits (calls s') <= commits (calls s) + 1)%nat).
Proof.
  intros F Hd. split.
  - destruct (spec_bulk_remove ids (whitelist d)) as [[w' a] k] eqn:E.
    destruct (spec_bulk_remove_shape _ _ _ _ _ E) as (Hl & Hsub & Hk & Hkeep & Hn).
    exists w', a, k. split; [reflexivity|].
    split; [exact (bulk_remove_mutation_run _ _ _ _ F Hd ids w' a k E)|].
    split; [apply (cached_doc_edited _ _ _ _ F Hd)|]. auto.
  - intros userIds reason r s'. apply cmd_bulk_remove_commits.
Qed.

Lemma bulk_remove_in_order_witness :
  let s := boot (mkRemote (mkDoc [5; 7; 6; 7; 8] []) 7%N) 0 [] in
  exists w' a k,
    spec_bulk_remove [7; 9; 7; 7] [5; 7; 6; 7; 8] = (w', a, k) /\
    bulk_remove_mutation [7; 9; 7; 7] s
    = (Val (0%nat, (k, a)), edited 0 (mkDoc [5; 7; 6; 7; 8] []) w' (refetched s)).
Proof.
  intros s.
  destruct (bulk_remove_in_order s (refetched s) (new_entry s) (mkDoc [5; 7; 6; 7; 8] [])
              [7; 9; 7; 7] eq_refl eq_refl) as [(w' & a & k & H1 & H2 & _) _].
  exists w', a, k. split; [exact H1 | exact H2].
Defined.

(** The bot introduces no duplicate: on a fetched list without
    duplicates, the list that each of the five mutation steps leaves in the
    cached document has no duplicates either, and the other fields of the
    document are not touched. *)
Theorem no_duplicate_is_introduced (s s1 : State) (e : Entry) (d : Doc) :
  fetchWhitelist s = (Val e, s1) ->
  heap s1 !! data e = Some d ->
  NoDup (whitelist d) ->
  let good (s' : State) :=
    exists d', cached_doc s' = Some d' /\ NoDup (whitelist d') /\ others d' = others d in
  (forall id, good (snd (add_mutation id s))) /\
  (forall id, good (snd (remove_mutation id s))) /\
  (forall ids, good (snd (bulk_add_mutation ids s))) /\
  (forall ids, good (snd (bulk_remove_mutation ids s))) /\
  good (snd (clear_mutation s)).
Proof.
  intros F Hd Hn good.
  assert (C0 : good s1).
  { exists d. split; [exact (cached_doc_fetched _ _ _ _ F Hd) | now split]. }
  assert (C1 : forall w, NoDup w -> good (edited (data e) d w s1)).
  { intros w Hw. exists (set_whitelist d w).
    split; [apply (cached_doc_edited _ _ _ _ F Hd) | now split]. }
  split; [|split; [|split; [|split]]].
  - intros id. rewrite (add_mutation_run _ _ _ _ F Hd).
    destruct (includes (whitelist d) id) eqn:I; simpl snd; [exact C0|].
    apply C1. pose proof (spec_add_NoDup id _ Hn) as H. unfold spec_add in H.
    now rewrite I in H.
  - intros id. rewrite (remove_mutation_run _ _ _ _ F Hd).
    destruct (includes (whitelist d) id); simpl snd; [|exact C0].
    apply C1. now apply spec_remove_NoDup.
  - intros ids. destruct (spec_bulk_add ids (whitelist d)) as [[w' a] k] eqn:E.
    rewrite (bulk_add_mutation_run _ _ _ _ F Hd ids w' a k E). apply C1.
    destruct (spec_bulk_add_shape _ _ _ _ _ E) as (_ & _ & _ & _ & _ & H). now apply H.
  - intros ids. destruct (spec_bulk_remove ids (whitelist d)) as [[w' a] k] eqn:E.
    rewrite (bulk_remove_mutation_run _ _ _ _ F Hd ids w' a k E). apply C1.
    destruct (spec_bulk_remove_shape _ _ _ _ _ E) as (_ & _ & _ & _ & H).
    exact (proj1 (H Hn)).
  - rewrite (clear_mutation_run _ _ _ _ F Hd). apply C1. constructor.
Qed.

Lemma no_duplicate_is_introduced_witness :
  let s := boot remote123 0 [] in
  exists d', cached_doc (snd (bulk_add_mutation [3; 4; 4] s)) = Some d' /\
             NoDup (whitelist d').
Proof.
  intros s.
  destruct (no_duplicate_is_introduced s (refetched s) (new_entry s) doc123
              eq_refl eq_refl) as (_ & _ & H & _).
  - repeat constructor; rewrite list_elem_of_In; simpl; intuition discriminate.
  - destruct (H [3; 4; 4]) as (d' & H1 & H2 & _). exists d'. now split.
Defined.

(** ** Whole commands, when the store answers *)

Lemma coherent_absent (s : State) : whitelistCache s = None -> coherent s.
Proof. intros H e He. congruence. Qed.

(** A coherent state stays coherent through a fetch, which returns an
    entry for the current content of the store. *)
Lemma fetch_keeps_coherent (s : State) :
  no_faults s -> coherent s ->
  exists e s1,
    fetchWhitelist s = (Val e, s1) /\
    sha e = r_sha (remote s1) /\ heap s1 !! data e = Some (r_doc (remote s)) /\
    remote s1 = remote s /\ no_faults s1 /\ coherent s1.
Proof.
  intros N C.
  destruct (fetch_coherent s N C) as (e & s1 & F & Hs & Hd & R & N1).
  exists e, s1. split; [exact F|]. split; [now rewrite R|].
  split; [exact Hd|]. split; [exact R|]. split; [exact N1|].
  intros e' He'. rewrite (fetched_is_cached _ _ _ F) in He'. inversion He'; subst.
  rewrite R. now split.
Qed.

(** The commit of an edited document, when the store answers. *)
Lemma commit_effect (s s1 : State) (e : Entry) (d : Doc) (w : list Z)
    (message : CommitMessage) :
  fetchWhitelist s = (Val e, s1) ->
  sha e = r_sha (remote s1) ->
  heap s1 !! data e = Some d ->
  no_faults s1 ->
  exists s3,
    updateWhitelist (data e) message (edited (data e) d w s1) = (Val true, s3) /\
    r_doc (remote s3) = set_whitelist d w /\ no_faults s3 /\ coherent s3.
Proof.
  intros F Hs Hd N1.
  set (s2 := edited (data e) d w s1).
  assert (S2 : sha_ok s2).
  { intros e' He'. simpl in He'. rewrite (fetched_is_cached _ _ _ F) in He'.
    inversion He'; subst. exact Hs. }
  assert (H2 : heap s2 !! data e = Some (set_whitelist d w))
    by (now apply edited_lookup with d).
  destruct (update_no_faults s2 (data e) _ message N1 S2 H2) as (s3 & U & Rd & N3 & C3).
  exists s3. split; [exact U|]. split; [exact Rd|]. split; [exact N3|].
  now apply coherent_absent.
Qed.

Lemma spec_bulk_remove_nothing (ids : list Z) :
  forall w w' k, spec_bulk_remove ids w = (w', [], k) -> w' = w.
Proof.
  induction ids as [|id ids IH]; intros w w' k H; simpl in H.
  - now inversion H.
  - destruct (spec_bulk_remove ids (spec_remove id w)) as [[w1 a1] k1] eqn:E.
    destruct (includes w id) eqn:I; inversion H; subst.
    apply includes_false in I. rewrite (spec_remove_absent _ _ I) in E.
    exact (IH _ _ _ E).
Qed.

Ltac done_effect :=
  split; [reflexivity|];
  split; [first [assumption | reflexivity | symmetry; assumption]|];
  split; assumption.

(** One command, from a coherent state in front of a store that answers. *)
Lemma handle_run (c : Command) (s : State) :
  no_faults s -> coherent s ->
  exists reply s',
    handle c s = (Val reply, s') /\
    r_doc (remote s')
    = set_whitelist (r_doc (remote s)) (spec_result c (whitelist (r_doc (remote s)))) /\
    no_faults s' /\ coherent s'.
Proof.
  intros N C. remember (r_doc (remote s)) as d eqn:Ed.
  assert (Skip : forall (reply : Reply) s1, remote s1 = remote s -> no_faults s1 ->
             coherent s1 ->
             exists reply' s', (Val reply, s1) = (Val reply', s') /\
               r_doc (remote s') = set_whitelist d (whitelist d) /\
               no_faults s' /\ coherent s').
  { intros reply s1 R N1 C1. exists reply, s1. rewrite set_whitelist_same, R.
    split; [reflexivity|]. split; [now symmetry|]. split; assumption. }
  destruct c as [u r|u r|u|us r|us r|user ms]; simpl handle; simpl spec_result.
  - destruct (test_digits u) eqn:T.
    + destruct (fetch_keeps_coherent s N C) as (e & s1 & F & Hs & Hd & R & N1 & C1).
      rewrite <- ?Ed in Hd.
      rewrite (cmd_add_unfold _ _ _ T), (add_mutation_run _ _ _ _ F Hd).
      unfold spec_add. destruct (includes (whitelist d) (parseInt u)).
      * now apply Skip.
      * destruct (commit_effect s s1 e d (push (whitelist d) (parseInt u))
                    (MsgAdded u (or_default r "No reason provided")) F Hs Hd N1)
          as (s3 & U & Rd & N3 & C3).
        rewrite U. eexists. exists s3. done_effect.
    + unfold cmd_add. rewrite T. exists InvalidUserId, s.
      rewrite set_whitelist_same. done_effect.
  - destruct (test_digits u) eqn:T.
    + destruct (fetch_keeps_coherent s N C) as (e & s1 & F & Hs & Hd & R & N1 & C1).
      rewrite <- ?Ed in Hd.
      rewrite (cmd_remove_unfold _ _ _ T), (remove_mutation_run _ _ _ _ F Hd).
      destruct (includes (whitelist d) (parseInt u)) eqn:I.
      * destruct (commit_effect s s1 e d (spec_remove (parseInt u) (whitelist d))
                    (MsgRemoved u (or_default r "No reason provided")) F Hs Hd N1)
          as (s3 & U & Rd & N3 & C3).
        rewrite U. eexists. exists s3. done_effect.
      * apply includes_false in I. rewrite (spec_remove_absent _ _ I).
        now apply Skip.
    + unfold cmd_remove. rewrite T. exists InvalidUserId, s.
      rewrite set_whitelist_same. done_effect.
  - unfold cmd_check. destruct (test_digits u); cbv beta iota delta [negb].
    + destruct (fetch_keeps_coherent s N C) as (e & s1 & F & Hs & Hd & R & N1 & C1).
      rewrite <- ?Ed in Hd.
      run F. run (deref_ok _ _ _ Hd). now apply Skip.
    + exists InvalidUserId, s. rewrite set_whitelist_same. done_effect.
  - destruct (parse_ids us) as [|x ids] eqn:P.
    + unfold cmd_bulk_add. rewrite P. exists NoValidIds, s.
      simpl. rewrite set_whitelist_same. done_effect.
    + destruct (fetch_keeps_coherent s N C) as (e & s1 & F & Hs & Hd & R & N1 & C1).
      rewrite <- ?Ed in Hd.
      rewrite cmd_bulk_add_unfold by congruence. rewrite P.
      destruct (spec_bulk_add (x :: ids) (whitelist d)) as [[w' a] k] eqn:E.
      rewrite (bulk_add_mutation_run _ _ _ _ F Hd _ w' a k E). simpl fst.
      destruct a as [|y a].
      * destruct (spec_bulk_add_shape _ _ _ _ _ E) as (-> & _). rewrite app_nil_r.
        rewrite (edited_unchanged _ _ _ Hd). now apply Skip.
      * destruct (commit_effect s s1 e d w'
                    (MsgBulkAdded (length (y :: a))
                       (or_default r "Bulk add - No reason provided")) F Hs Hd N1)
          as (s3 & U & Rd & N3 & C3).
        rewrite U. eexists. exists s3. done_effect.
  - destruct (parse_ids us) as [|x ids] eqn:P.
    + unfold cmd_bulk_remove. rewrite P. exists NoValidIds, s.
      simpl. rewrite set_whitelist_same. done_effect.
    + destruct (fetch_keeps_coherent s N C) as (e & s1 & F & Hs & Hd & R & N1 & C1).
      rewrite <- ?Ed in Hd.
      rewrite cmd_bulk_remove_unfold by congruence. rewrite P.
      destruct (spec_bulk_remove (x :: ids) (whitelist d)) as [[w' a] k] eqn:E.
      rewrite (bulk_remove_mutation_run _ _ _ _ F Hd _ w' a k E). simpl fst.
      destruct a as [|y a].
      * rewrite (spec_bulk_remove_nothing _ _ _ _ E).
        rewrite (edited_unchanged _ _ _ Hd). now apply Skip.
      * destruct (commit_effect s s1 e d w'
                    (MsgBulkRemoved (length (y :: a))
                       (or_default r "Bulk remove - No reason provided")) F Hs Hd N1)
          as (s3 & U & Rd & N3 & C3).
        rewrite U. eexists. exists s3. done_effect.
  - unfold cmd_clear.
    destruct (createMessageCollector (confirm_filter user) 30000 ms) as [m|].
    + set (st := at_time (clock s + arrival m) s).
      assert (Nt : no_faults st) by exact N.
      assert (Ct : coherent st) by exact C.
      destruct (fetch_keeps_coherent st Nt Ct) as (e & s1 & F & Hs & Hd & R & N1 & C1).
      rewrite <- ?Ed in Hd.
      change (r_doc (remote st)) with (r_doc (remote s)) in Hd. rewrite <- Ed in Hd.
      destruct (commit_effect st s1 e d [] (MsgCleared (length (whitelist d))) F Hs Hd N1)
        as (s3 & U & Rd & N3 & C3).
      exists (WhitelistCleared (length (whitelist d))), s3.
      split; [|split; [exact Rd | split; assumption]].
      unfold bind at 1, modify. fold st. unfold try_catch, on_collect.
      rewrite (bind_val _ _ _ _ _ (clear_mutation_run _ _ _ _ F Hd)).
      simpl fst. simpl snd. rewrite commit_tail, U. reflexivity.
    + exists ClearCancelled, s. rewrite set_whitelist_same. done_effect.
Qed.

(** 'check' and 'count' from a coherent state in front of a store that
    answers. *)
Lemma reads_run (s : State) (userId : jsstring) :
  no_faults s -> coherent s ->
  (test_digits userId = true ->
   fst (cmd_check userId s)
   = Val (CheckResult userId
            (includes (whitelist (r_doc (remote s))) (parseInt userId)))) /\
  fst (cmd_count s) = Val (CountIs (length (whitelist (r_doc (remote s))))).
Proof.
  intros N C.
  destruct (fetch_keeps_coherent s N C) as (e & s1 & F & _ & Hd & _).
  split.
  - intros T. unfold cmd_check. rewrite T. cbv beta iota delta [negb].
    run F. run (deref_ok _ _ _ Hd). reflexivity.
  - unfold cmd_count. run F. run (deref_ok _ _ _ Hd). reflexivity.
Qed.

(** ** Conflicts and failed commits *)

Lemma fetch_hit_fresh (s : State) (e : Entry) :
  whitelistCache s = Some e -> is_fresh s = true -> fetchWhitelist s = (Val e, s).
Proof.
  intros C F. rewrite fetchWhitelist_unfold, C. now rewrite F.
Qed.

(** A write made with an outdated revision.  When the cached entry is
    younger than the TTL but the store has moved to another revision, the
    write is sent with the cached revision and refused: [updateWhitelist]
    throws, the content of the store is not touched, and the outdated entry
    stays in the cache, so that every further write made while that entry is
    fresh is refused as well. *)
Theorem conflicts_are_detected
    (s : State) (e : Entry) (l : nat) (d : Doc) (message : CommitMessage) :
  whitelistCache s = Some e ->
  is_fresh s = true ->
  sha e <> r_sha (remote s) ->
  next_fault s = None ->
  heap s !! l = Some d ->
  let s' := snd (updateWhitelist l message s) in
  updateWhitelist l message s
  = (Throw update_failed, called (PutContent d (sha e) message) s) /\
  remote s' = remote s /\
  whitelistCache s' = Some e /\
  (forall l' d' message',
     heap s' !! l' = Some d' -> is_fresh s' = true -> next_fault s' = None ->
     fst (updateWhitelist l' message' s') = Throw update_failed).
Proof.
  intros C F Hs NF Hl s'.
  assert (Hrun : forall s0 l0 d0 m0,
             whitelistCache s0 = Some e -> is_fresh s0 = true ->
             sha e <> r_sha (remote s0) -> next_fault s0 = None ->
             heap s0 !! l0 = Some d0 ->
             updateWhitelist l0 m0 s0
             = (Throw update_failed, called (PutContent d0 (sha e) m0) s0)).
  { intros s0 l0 d0 m0 C0 F0 Hs0 NF0 Hl0.
    rewrite updateWhitelist_unfold, (fetch_hit_fresh _ _ C0 F0), Hl0, NF0.
    apply N.eqb_neq in Hs0. now rewrite Hs0. }
  pose proof (Hrun s l d message C F Hs NF Hl) as H.
  unfold s'. rewrite H. simpl snd.
  split; [reflexivity|]. split; [reflexivity|]. split; [exact C|].
  intros l' d' message' Hl' F' NF'.
  rewrite (Hrun (called (PutContent d (sha e) message) s) l' d' message'
             C F' Hs NF' Hl').
  reflexivity.
Qed.

Lemma conflicts_are_detected_witness :
  let s := external_commit (mkDoc [1; 2; 3; 9] [])
             (snd (add_mutation 4 (boot remote123 0 []))) in
  fst (updateWhitelist 0 (MsgCleared 0) s) = Throw update_failed /\
  remote (snd (updateWhitelist 0 (MsgCleared 0) s)) = remote s.
Proof.
  intros s.
  destruct (conflicts_are_detected s (mkEntry 0 7%N) 0%nat
              (mkDoc [1; 2; 3; 4] [("plugin"%string, "MeshLab"%string)])
              (MsgCleared 0) eq_refl eq_refl) as (H1 & H2 & _).
  - vm_compute. discriminate.
  - reflexivity.
  - reflexivity.
  - split; [now rewrite H1 | exact H2].
Defined.

(** A write made when the cache entry is absent or older than the TTL:
    [updateWhitelist] first fetches the file again, sends the write with the
    revision it has just fetched, and the store accepts it, whatever the
    document that is written: its content replaces the content of the
    store. *)
Theorem write_after_expiry_is_accepted
    (s : State) (l : nat) (d : Doc) (message : CommitMessage) :
  is_fresh s = false ->
  next_fault s = None ->
  next_fault (refetched s) = None ->
  heap s !! l = Some d ->
  let s' := snd (updateWhitelist l message s) in
  updateWhitelist l message s
  = (Val true, committed d (r_sha (remote s)) message (refetched s)) /\
  r_doc (remote s') = d /\
  whitelistCache s' = None /\
  calls s' = calls s ++ [GetContent; PutContent d (r_sha (remote s)) message].
Proof.
  intros F NF NF' Hl s'.
  assert (H : updateWhitelist l message s
              = (Val true, committed d (r_sha (remote s)) message (refetched s))).
  { rewrite updateWhitelist_unfold, (fetchWhitelist_miss s F), (refetch_ok s NF).
    assert (Hl' : heap (refetched s) !! l = Some d)
      by (simpl; now apply lookup_app_l_Some).
    rewrite Hl', NF'. simpl sha. simpl remote. now rewrite N.eqb_refl. }
  unfold s'. rewrite H. simpl snd.
  split; [reflexivity|]. split; [reflexivity|]. split; [reflexivity|].
  simpl. now rewrite <- app_assoc.
Qed.

Lemma write_after_expiry_is_accepted_witness :
  let s := external_commit (mkDoc [1; 2; 3; 9] [])
             (at_time 70000 (snd (add_mutation 4 (boot remote123 0 [])))) in
  r_doc (remote (snd (updateWhitelist 0 (MsgCleared 0) s)))
  = mkDoc [1; 2; 3; 4] [("plugin"%string, "MeshLab"%string)].
Proof.
  intros s.
  exact (proj1 (proj2 (write_after_expiry_is_accepted s 0%nat _ (MsgCleared 0)
                         eq_refl eq_refl eq_refl eq_refl))).
Defined.

(** An Add whose commit fails stays in the cache.  When the document is
    served from a fresh cache entry and the write fails (the store is down
    or refuses the revision), the handler throws and the store is not
    changed, but the id has been pushed on the cached document; until the
    entry expires a new Add of the id is answered "already whitelisted"
    without any call to the store, and 'check' answers that the id is
    whitelisted. *)
Theorem failed_add_stays_in_cache
    (s : State) (e : Entry) (d : Doc) (userId : jsstring) (reason : option jsstring) :
  whitelistCache s = Some e ->
  is_fresh s = true ->
  heap s !! data e = Some d ->
  test_digits userId = true ->
  includes (whitelist d) (parseInt userId) = false ->
  next_fault s <> None \/ sha e <> r_sha (remote s) ->
  let s' := snd (cmd_add userId reason s) in
  fst (cmd_add userId reason s) = Throw update_failed /\
  remote s' = remote s /\
  cached_doc s' = Some (set_whitelist d (whitelist d ++ [parseInt userId])) /\
  forall t reason',
    t - lastFetch s < CACHE_DURATION ->
    cmd_add userId reason' (at_time t s')
    = (Val (AlreadyWhitelisted userId), at_time t s') /\
    cmd_check userId (at_time t s') = (Val (CheckResult userId true), at_time t s').
Proof.
  intros C F Hd T I Hfail s'.
  pose proof (fetch_hit_fresh _ _ C F) as Fe.
  set (id := parseInt userId) in *.
  set (d2 := set_whitelist d (push (whitelist d) id)).
  set (s2 := edited (data e) d (push (whitelist d) id) s).
  set (message := MsgAdded userId (or_default reason "No reason provided")).
  assert (Hd2 : heap s2 !! data e = Some d2) by (now apply edited_lookup with d).
  assert (U : updateWhitelist (data e) message s2
              = (Throw update_failed, called (PutContent d2 (sha e) message) s2)).
  { rewrite updateWhitelist_unfold.
    rewrite (fetch_hit_fresh s2 e C F), Hd2.
    change (next_fault s2) with (next_fault s).
    destruct (next_fault s) as [err|]; [reflexivity|].
    destruct Hfail as [Hf|Hs]; [congruence|].
    change (remote s2) with (remote s). apply N.eqb_neq in Hs. now rewrite Hs. }
  assert (R : cmd_add userId reason s
              = (Throw update_failed, called (PutContent d2 (sha e) message) s2)).
  { rewrite (cmd_add_unfold _ _ _ T). fold id.
    rewrite (add_mutation_run _ _ _ _ Fe Hd id), I. fold s2. fold message.
    now rewrite U. }
  unfold s'. rewrite R. simpl fst. simpl snd.
  split; [reflexivity|]. split; [reflexivity|].
  assert (Hc : cached_doc (called (PutContent d2 (sha e) message) s2) = Some d2).
  { unfold cached_doc. simpl whitelistCache. rewrite C. exact Hd2. }
  split; [exact Hc|].
  intros t reason' Ht.
  set (st := at_time t (called (PutContent d2 (sha e) message) s2)).
  assert (Ct : whitelistCache st = Some e) by exact C.
  assert (Ft : is_fresh st = true).
  { unfold is_fresh. rewrite Ct. simpl. now apply Z.ltb_lt. }
  assert (Hdt : heap st !! data e = Some d2) by exact Hd2.
  pose proof (fetch_hit_fresh _ _ Ct Ft) as Fet.
  assert (I2 : includes (whitelist d2) id = true).
  { unfold d2. simpl whitelist. now rewrite includes_push, Z.eqb_refl, orb_true_r. }
  split.
  - rewrite (cmd_add_unfold _ _ _ T). fold id.
    rewrite (add_mutation_run _ _ _ _ Fet Hdt id), I2. reflexivity.
  - unfold cmd_check. rewrite T. cbv beta iota delta [negb].
    run Fet. run (deref_ok _ _ _ Hdt). fold id. now rewrite I2.
Qed.

Lemma failed_add_stays_in_cache_witness :
  let s := set_script [(10%N, Some (RequestError 503))]
             (refetched (boot remote123 0 [])) in
  let s' := snd (cmd_add (js "4") None s) in
  fst (cmd_add (js "4") None s) = Throw update_failed /\
  cmd_check (js "4") (at_time 30000 s')
  = (Val (CheckResult (js "4") true), at_time 30000 s') /\
  whitelist (r_doc (remote s')) = [1; 2; 3].
Proof.
  intros s s'.
  destruct (failed_add_stays_in_cache s (mkEntry 0 7%N) doc123 (js "4") None
              eq_refl eq_refl eq_refl eq_refl eq_refl) as (H1 & H2 & _ & H4).
  - left. discriminate.
  - split; [exact H1|]. split; [|unfold s'; now rewrite H2].
    refine (proj2 (H4 30000 None _)). reflexivity.
Defined.

(** ** Ids as text *)

Lemma is_digit_of_Z (m : Z) : 0 <= m < 10 -> is_digit (Z.to_N (48 + m)) = true.
Proof.
  intros H. unfold is_digit. apply andb_true_iff.
  split; apply N.leb_le; apply N2Z.inj_le; rewrite Z2N.id by lia;
    change (Z.of_N 48) with 48; change (Z.of_N 57) with 57; lia.
Qed.

Lemma parseInt_snoc (s : jsstring) (c : N) :
  parseInt (s ++ [c]) = 10 * parseInt s + (Z.of_N c - 48).
Proof. unfold parseInt. now rewrite List.fold_left_app. Qed.

(** The digits of [n], read back, give [n]. *)
Lemma digits_spec (fuel : nat) :
  forall n, 0 <= n < 2 ^ Z.of_nat (S fuel) ->
    digits (S fuel) n <> [] /\
    List.forallb is_digit (digits (S fuel) n) = true /\
    parseInt (digits (S fuel) n) = n.
Proof.
  assert (Hsmall : forall f n, 0 <= n -> n < 10 ->
            digits (S f) n <> [] /\
            List.forallb is_digit (digits (S f) n) = true /\
            parseInt (digits (S f) n) = n).
  { intros f n H0 H10. cbn [digits].
    assert (E : (n <? 10) = true) by (apply Z.ltb_lt; lia). rewrite E.
    simpl app. split; [discriminate|]. split.
    - simpl. rewrite is_digit_of_Z; [reflexivity|].
      rewrite Z.mod_small; lia.
    - unfold parseInt. simpl. rewrite Z.mod_small by lia.
      rewrite Z2N.id by lia. lia. }
  induction fuel as [|fuel IH]; intros n Hn.
  - apply Hsmall; [lia|]. change (2 ^ Z.of_nat 1) with 2 in Hn. lia.
  - destruct (Z.lt_ge_cases n 10) as [H10|H10]; [apply Hsmall; lia|].
    remember (S fuel) as f eqn:Ef. cbn [digits].
    assert (E : (n <? 10) = false) by (apply Z.ltb_ge; lia). rewrite E.
    assert (Hm : 0 <= n mod 10 < 10) by (apply Z.mod_pos_bound; lia).
    assert (Hq : 0 <= n / 10 < 2 ^ Z.of_nat f).
    { rewrite Nat2Z.inj_succ, Z.pow_succ_r in Hn by lia.
      split; [apply Z.div_pos; lia|].
      apply Z.div_lt_upper_bound; lia. }
    subst f. destruct (IH _ Hq) as (_ & Hd & Hp).
    split; [intros X; apply (f_equal (@length N)) in X; rewrite length_app in X;
            simpl in X; lia|].
    split.
    + rewrite List.forallb_app, Hd. simpl. now rewrite is_digit_of_Z.
    + rewrite parseInt_snoc, Hp. rewrite Z2N.id by lia.
      pose proof (Z.div_mod n 10). lia.
Qed.

Lemma toString_spec (n : Z) :
  0 <= n ->
  toString n <> [] /\
  List.forallb is_digit (toString n) = true /\
  parseInt (toString n) = n.
Proof.
  intros Hn. unfold toString.
  assert (E : (n <? 0) = false) by (apply Z.ltb_ge; lia). rewrite E.
  apply digits_spec. split; [exact Hn|].
  rewrite Nat2Z.inj_succ, Z2Nat.id by apply Z.log2_nonneg.
  destruct (Z.eq_dec n 0) as [->|Hz]; [reflexivity|].
  apply Z.log2_spec. lia.
Qed.

Lemma toString_nonempty (n : Z) : toString n <> [].
Proof.
  unfold toString. destruct (n <? 0); [discriminate|].
  cbn [digits]. intros E. apply (f_equal (@length N)) in E.
  rewrite length_app in E. simpl in E. lia.
Qed.

Lemma test_digits_forallb (s : jsstring) :
  test_digits s = true <-> s <> [] /\ List.forallb is_digit s = true.
Proof.
  unfold test_digits. destruct s as [|c s].
  - split; [discriminate | intros [H _]; congruence].
  - split; [intros H; split; [discriminate | exact H] | intros [_ H]; exact H].
Qed.

Lemma is_digit_not_space (c : N) : is_digit c = true -> is_space c = false.
Proof.
  unfold is_digit, is_space. intros H. apply andb_true_iff in H.
  destruct H as [H1 H2]. apply N.leb_le in H1, H2.
  repeat (apply orb_false_iff; split);
    try (apply N.eqb_neq; lia);
    apply andb_false_iff; [right | left]; apply N.leb_gt; lia.
Qed.

Lemma trimStart_digits (s : jsstring) :
  List.forallb is_digit s = true -> trimStart s = s.
Proof.
  destruct s as [|c s]; [reflexivity|]. simpl. intros H.
  apply andb_true_iff in H. destruct H as [H _].
  now rewrite (is_digit_not_space _ H).
Qed.

Lemma trim_digits (s : jsstring) : List.forallb is_digit s = true -> trim s = s.
Proof.
  intros H. unfold trim. rewrite (trimStart_digits _ H).
  rewrite trimStart_digits; [apply List.rev_involutive|].
  rewrite List.forallb_forall in *. intros c Hc. apply H. now apply List.in_rev.
Qed.

Lemma split_nonempty (sep : N) (s : jsstring) : split sep s <> [].
Proof.
  induction s as [|c s IH]; simpl; [discriminate|].
  destruct (N.eqb c sep); [discriminate|].
  destruct (split sep s); [contradiction | discriminate].
Qed.

Lemma split_digits_sep (x s : jsstring) :
  List.forallb is_digit x = true ->
  split 44%N (x ++ 44%N :: s) = x :: split 44%N s.
Proof.
  induction x as [|c x IH]; simpl; intros H; [reflexivity|].
  apply andb_true_iff in H. destruct H as [Hc Hx].
  assert (E : N.eqb c 44 = false).
  { apply N.eqb_neq. unfold is_digit in Hc. apply andb_true_iff in Hc.
    destruct Hc as [H1 _]. apply N.leb_le in H1. lia. }
  rewrite E, (IH Hx). reflexivity.
Qed.

Lemma split_digits (x : jsstring) :
  List.forallb is_digit x = true -> split 44%N x = [x].
Proof.
  induction x as [|c x IH]; simpl; intros H; [reflexivity|].
  apply andb_true_iff in H. destruct H as [Hc Hx].
  assert (E : N.eqb c 44 = false).
  { apply N.eqb_neq. unfold is_digit in Hc. apply andb_true_iff in Hc.
    destruct Hc as [H1 _]. apply N.leb_le in H1. lia. }
  rewrite E, (IH Hx). reflexivity.
Qed.

Lemma parse_ids_space (s : jsstring) : parse_ids (32%N :: s) = parse_ids s.
Proof.
  unfold parse_ids. simpl split.
  pose proof (split_nonempty 44%N s) as NE.
  destruct (split 44%N s) as [|t r]; [contradiction|]. reflexivity.
Qed.

Lemma parse_ids_digits_sep (x s : jsstring) :
  test_digits x = true ->
  parse_ids (x ++ 44%N :: s) = parseInt x :: parse_ids s.
Proof.
  intros T. pose proof T as T'. apply test_digits_forallb in T'. destruct T' as [_ Hd].
  unfold parse_ids. rewrite (split_digits_sep _ _ Hd). simpl.
  now rewrite (trim_digits _ Hd), T.
Qed.

Lemma parse_ids_single (x : jsstring) :
  test_digits x = true -> parse_ids x = [parseInt x].
Proof.
  intros T. pose proof T as T'. apply test_digits_forallb in T'. destruct T' as [_ Hd].
  unfold parse_ids. rewrite (split_digits _ Hd). simpl.
  now rewrite (trim_digits _ Hd), T.
Qed.

Lemma join_cons (sep x y : jsstring) (l : list jsstring) :
  join sep (x :: y :: l) = x ++ sep ++ join sep (y :: l).
Proof. reflexivity. Qed.

Lemma parse_join (with_space : bool) (ds : list jsstring) :
  List.Forall (fun x => test_digits x = true) ds ->
  parse_ids (join (if with_space then [44%N; 32%N] else [44%N]) ds)
  = List.map parseInt ds.
Proof.
  induction ds as [|x ds IH]; intros H; [now destruct with_space|].
  inversion H as [|? ? Hx Hds]; subst.
  destruct ds as [|y ds]; [exact (parse_ids_single _ Hx)|].
  specialize (IH Hds). rewrite join_cons.
  change (List.map parseInt (x :: y :: ds))
    with (parseInt x :: List.map parseInt (y :: ds)).
  rewrite <- IH. destruct with_space.
  - change (x ++ [44%N; 32%N] ++ ?r) with (x ++ 44%N :: 32%N :: r).
    now rewrite (parse_ids_digits_sep _ _ Hx), parse_ids_space.
  - change (x ++ [44%N] ++ ?r) with (x ++ 44%N :: r).
    now rewrite (parse_ids_digits_sep _ _ Hx).
Qed.

Lemma parse_printed (ids : list Z) :
  List.Forall (fun n => 0 <= n) ids ->
  parse_ids (join (js ", ") (List.map toString ids)) = ids /\
  parse_ids (join (js ",") (List.map toString ids)) = ids.
Proof.
  intros H.
  assert (Hd : List.Forall (fun x => test_digits x = true) (List.map toString ids)).
  { apply List.Forall_map. eapply List.Forall_impl; [|exact H].
    intros n Hn. apply test_digits_forallb.
    destruct (toString_spec n Hn) as (H1 & H2 & _). now split. }
  assert (Hp : List.map parseInt (List.map toString ids) = ids).
  { rewrite List.map_map. rewrite <- (List.map_id ids) at 2.
    apply List.map_ext_Forall. eapply List.Forall_impl; [|exact H].
    intros n Hn. exact (proj2 (proj2 (toString_spec n Hn))). }
  split.
  - rewrite <- Hp at 2. exact (parse_join true _ Hd).
  - rewrite <- Hp at 2. exact (parse_join false _ Hd).
Qed.

(** The ids that the bot prints can be given back to it: a list of ids
    that are natural numbers and safe integers, written in decimal and
    joined by ", " (the way the bulk answers show them) or by ",", is parsed
    by the bulk commands into the same list, in the same order. *)
Theorem printed_ids_parse_back (ids : list Z) :
  List.Forall safe_id ids ->
  parse_ids (join (js ", ") (List.map toString ids)) = ids /\
  parse_ids (join (js ",") (List.map toString ids)) = ids.
Proof.
  intros H. apply parse_printed.
  eapply List.Forall_impl; [|exact H]. intros n Hn. exact (proj1 Hn).
Qed.

Lemma printed_ids_parse_back_witness :
  parse_ids (join (js ", ") (List.map toString [0; 42; 7; 1234567890123])) =
  [0; 42; 7; 1234567890123].
Proof.
  refine (proj1 (printed_ids_parse_back [0; 42; 7; 1234567890123] _)).
  unfold safe_id, MAX_SAFE_INTEGER. repeat apply List.Forall_cons; try apply List.Forall_nil; lia.
Defined.

Lemma join_nonempty (sep : jsstring) (ds : list jsstring) :
  ds <> [] -> List.Forall (fun x => x <> []) ds -> join sep ds <> [].
Proof.
  destruct ds as [|x ds]; [congruence|]. intros _ H.
  inversion H as [|? ? Hx _]; subst.
  destruct ds as [|y ds]; [exact Hx|].
  change (join sep (x :: y :: ds)) with (x ++ sep ++ join sep (y :: ds)).
  destruct x; [congruence | discriminate].
Qed.

(** The value of a field of the bulk answers is never empty and never
    longer than 1024 code units (the limit of an embed field); for a list
    that holds ids (the only case in which the handlers add the field) it is
    the joined text, cut at 1024, and the fallback "None" is not used; and
    when the ids are natural numbers and safe integers and their joined
    text fits, the value parses back to the ids. *)
Theorem field_value_fits (ids : list Z) :
  field_value ids <> [] /\
  (length (field_value ids) <= 1024)%nat /\
  (ids <> [] ->
     field_value ids
     = substring0 (join (js ", ") (List.map toString ids)) 1024) /\
  (ids <> [] -> List.Forall safe_id ids ->
     (length (join (js ", ") (List.map toString ids)) <= 1024)%nat ->
     parse_ids (field_value ids) = ids).
Proof.
  unfold field_value.
  set (text := join (js ", ") (List.map toString ids)).
  assert (Hlen : (length (substring0 text 1024) <= 1024)%nat)
    by (unfold substring0; rewrite List.length_firstn; lia).
  assert (Hne : ids <> [] -> substring0 text 1024 <> []).
  { intros NE. assert (T : text <> []).
    { apply join_nonempty.
      - destruct ids; [congruence | discriminate].
      - apply List.Forall_map, List.Forall_forall. intros n _. apply toString_nonempty. }
    unfold substring0. destruct text; [congruence | discriminate]. }
  split; [|split; [|split]].
  - destruct (substring0 text 1024); discriminate.
  - destruct (substring0 text 1024) eqn:E; [vm_compute; lia | exact Hlen].
  - intros NE. specialize (Hne NE). destruct (substring0 text 1024); congruence.
  - intros NE Hsafe Hfit. specialize (Hne NE).
    assert (Hpos : List.Forall (fun n => 0 <= n) ids).
    { eapply List.Forall_impl; [|exact Hsafe]. intros n Hn. exact (proj1 Hn). }
    assert (E : substring0 text 1024 = text)
      by (unfold substring0; now apply List.firstn_all2).
    rewrite E in *. destruct text eqn:Et; [congruence|]. rewrite <- Et.
    exact (proj1 (parse_printed ids Hpos)).
Qed.

Lemma field_value_fits_witness :
  field_value [4; 5] = substring0 (join (js ", ") (List.map toString [4; 5])) 1024 /\
  parse_ids (field_value [4; 5]) = [4; 5].
Proof.
  destruct (field_value_fits [4; 5]) as (_ & _ & H1 & H2).
  split.
  - apply H1. discriminate.
  - apply H2; [discriminate | | vm_compute; lia].
    unfold safe_id, MAX_SAFE_INTEGER.
    repeat apply List.Forall_cons; try apply List.Forall_nil; lia.
Defined.

(** ** Ids are natural numbers *)

Lemma fold_digits_nonneg (s : jsstring) :
  forall a, 0 <= a -> List.forallb is_digit s = true ->
    0 <= List.fold_left (fun acc c => 10 * acc + (Z.of_N c - 48)) s a.
Proof.
  induction s as [|c s IH]; intros a Ha H; simpl; [exact Ha|].
  simpl in H. apply andb_true_iff in H. destruct H as [Hc Hs].
  apply IH; [|exact Hs].
  unfold is_digit in Hc. apply andb_true_iff in Hc. destruct Hc as [H1 _].
  apply N.leb_le in H1. lia.
Qed.

Lemma parseInt_nonneg (s : jsstring) : test_digits s = true -> 0 <= parseInt s.
Proof.
  intros T. apply test_digits_forallb in T. destruct T as [_ H].
  now apply fold_digits_nonneg.
Qed.

Lemma trim_trailing_space (s : jsstring) :
  s <> [] -> List.forallb is_digit s = true -> trim (s ++ [32%N]) = s.
Proof.
  intros NE Hd. unfold trim.
  assert (H1 : trimStart (s ++ [32%N]) = s ++ [32%N]).
  { destruct s as [|ch x]; [congruence|]. simpl in Hd.
    apply andb_true_iff in Hd. destruct Hd as [Hc _].
    simpl. now rewrite (is_digit_not_space _ Hc). }
  rewrite H1, List.rev_app_distr.
  change (trimStart (List.rev [32%N] ++ List.rev s)) with (trimStart (List.rev s)).
  rewrite trimStart_digits; [apply List.rev_involutive|].
  rewrite List.forallb_forall in *. intros y Hy. apply Hd. now apply List.in_rev.
Qed.

Lemma parse_ids_nonneg (userIds : jsstring) :
  List.Forall (fun n => 0 <= n) (parse_ids userIds).
Proof.
  apply List.Forall_forall. intros n Hn. apply parse_ids_In in Hn.
  destruct Hn as (tok & _ & T & ->). now apply parseInt_nonneg.
Qed.

(** A command within range keeps the ids of the list within the bounds
    they had. *)
Lemma spec_result_bounded (lo : Z) (c : Command) (w : list Z) :
  lo <= 0 -> in_range c ->
  List.Forall (fun n => lo <= n <= MAX_SAFE_INTEGER) w ->
  List.Forall (fun n => lo <= n <= MAX_SAFE_INTEGER) (spec_result c w).
Proof.
  intros Hlo R H. rewrite List.Forall_forall in H.
  apply List.Forall_forall. intros n Hn.
  destruct c as [u r|u r|u|us r|us r|user ms]; simpl in Hn, R.
  - destruct (test_digits u) eqn:T; [|now apply H].
    unfold spec_add in Hn. destruct (includes w (parseInt u)); [now apply H|].
    apply in_app_or in Hn. destruct Hn as [Hn|[<-|[]]]; [now apply H|].
    destruct R as (_ & _ & B). specialize (B eq_refl).
    pose proof (parseInt_nonneg u T). lia.
  - destruct (test_digits u); [|now apply H].
    apply H. now apply spec_remove_In with (parseInt u).
  - now apply H.
  - destruct (spec_bulk_add (parse_ids us) w) as [[w' a] k] eqn:E.
    destruct (spec_bulk_add_shape _ _ _ _ _ E) as (-> & _ & Ha & _).
    simpl in Hn. apply in_app_or in Hn. destruct Hn as [Hn|Hn]; [now apply H|].
    destruct (Ha n Hn) as [Hin _].
    pose proof (parse_ids_nonneg us) as P. rewrite List.Forall_forall in P, R.
    specialize (P n Hin). specialize (R n Hin). lia.
  - destruct (spec_bulk_remove (parse_ids us) w) as [[w' a] k] eqn:E.
    destruct (spec_bulk_remove_shape _ _ _ _ _ E) as (_ & Hsub & _).
    simpl in Hn. apply H. now apply Hsub.
  - destruct (createMessageCollector (confirm_filter user) 30000 ms);
      [destruct Hn | now apply H].
Qed.

(** One command within range, from a coherent state in front of a store
    that answers and holds safe integers. *)
Lemma handle_run_safe (c : Command) (s : State) :
  no_faults s -> coherent s -> safe_store s -> in_range c ->
  exists reply s',
    handle c s = (Val reply, s') /\
    r_doc (remote s')
    = set_whitelist (r_doc (remote s)) (spec_result c (whitelist (r_doc (remote s)))) /\
    no_faults s' /\ coherent s' /\ safe_store s'.
Proof.
  intros N C S R.
  destruct (handle_run c s N C) as (reply & s' & H & Rd & N' & C').
  exists reply, s'. split; [exact H|]. split; [exact Rd|].
  split; [exact N'|]. split; [exact C'|].
  unfold safe_store. rewrite Rd. simpl whitelist.
  apply (spec_result_bounded (- MAX_SAFE_INTEGER) c _); [|exact R | exact S].
  unfold MAX_SAFE_INTEGER. lia.
Qed.

Ltac within_bounds :=
  simpl; unfold safe_store, safe, safe_id, fits_field, MAX_SAFE_INTEGER; simpl;
  repeat apply List.Forall_cons; try apply List.Forall_nil;
  repeat split;
  try match goal with |- test_digits _ = true -> _ => intros _ end;
  try lia; try (vm_compute; discriminate).

(** No negative id enters the list through the bot: an id accepted by a
    single command or kept by the parser of the bulk commands is a natural
    number (the same number whatever its leading zeros or the blanks around
    it), and a list of natural numbers that are safe integers, in the
    store, stays one through every command whose ids are safe integers. *)
Theorem ids_are_natural (userIds : jsstring) (c : Command) (s : State) :
  List.Forall (fun n => 0 <= n) (parse_ids userIds) /\
  (test_digits userIds = true -> 0 <= parseInt userIds) /\
  (test_digits userIds = true ->
     parseInt (48%N :: userIds) = parseInt userIds /\
     parse_ids (32%N :: userIds ++ [32%N]) = [parseInt userIds]) /\
  (no_faults s -> coherent s -> in_range c ->
   List.Forall safe_id (whitelist (r_doc (remote s))) ->
   List.Forall safe_id (whitelist (r_doc (remote (snd (handle c s)))))).
Proof.
  split; [apply parse_ids_nonneg|]. split; [apply parseInt_nonneg|]. split.
  - intros T. split; [reflexivity|].
    rewrite parse_ids_space.
    pose proof T as T'. apply test_digits_forallb in T'. destruct T' as [NE Hd].
    unfold parse_ids.
    assert (Hs : split 44%N (userIds ++ [32%N]) = [userIds ++ [32%N]]).
    { clear T NE. induction userIds as [|ch x IH]; [reflexivity|].
      simpl in Hd. apply andb_true_iff in Hd. destruct Hd as [Hc Hx].
      assert (E : N.eqb ch 44 = false).
      { apply N.eqb_neq. unfold is_digit in Hc. apply andb_true_iff in Hc.
        destruct Hc as [H1 _]. apply N.leb_le in H1. lia. }
      simpl. rewrite E, (IH Hx). reflexivity. }
    rewrite Hs. simpl List.map.
    rewrite (trim_trailing_space _ NE Hd). simpl. now rewrite T.
  - intros N C R H.
    destruct (handle_run c s N C) as (reply & s' & E & Rd & _).
    rewrite E. simpl snd. rewrite Rd. simpl whitelist.
    apply (spec_result_bounded 0 c _); [lia | exact R | exact H].
Qed.

Lemma ids_are_natural_witness :
  parse_ids (32%N :: js "0042" ++ [32%N]) = [parseInt (js "0042")] /\
  0 <= parseInt (js "0042") /\
  List.Forall safe_id
    (whitelist (r_doc (remote (snd (handle (Add (js "0042") None)
                                      (boot remote123 0 [])))))).
Proof.
  destruct (ids_are_natural (js "0042") (Add (js "0042") None) (boot remote123 0 []))
    as (_ & H1 & H2 & H3).
  split; [exact (proj2 (H2 eq_refl))|]. split; [exact (H1 eq_refl)|].
  apply H3.
  - constructor.
  - intros e He. discriminate He.
  - within_bounds.
  - within_bounds.
Defined.

(** ** Whole commands, within range *)

(** With a store that answers and holds safe integers, a cache that
    mirrors it (or is empty) and a command within range (its ids are safe
    integers, the id and the reason of a single command fit a field of the
    answer), the command is answered by its handler and leaves in the store
    the document it found there with its list replaced by the list that the
    command is meant to produce ([spec_result]), the other fields untouched;
    the cache mirrors the store again afterwards and the store still holds
    safe integers, so that the statement applies to the next command. *)
Theorem handle_effect (c : Command) (s : State) :
  no_faults s -> coherent s -> safe_store s -> in_range c ->
  exists reply s',
    handle c s = (Val reply, s') /\
    r_doc (remote s')
    = set_whitelist (r_doc (remote s)) (spec_result c (whitelist (r_doc (remote s)))) /\
    no_faults s' /\ coherent s' /\ safe_store s'.
Proof. intros N C S R. exact (handle_run_safe c s N C S R). Qed.

Lemma handle_effect_witness :
  let s := boot remote123 0 [] in
  exists reply s',
    handle (BulkRemove (js "3, 1") None) s = (Val reply, s') /\
    r_doc (remote s') = set_whitelist doc123 [2].
Proof.
  intros s.
  destruct (handle_effect (BulkRemove (js "3, 1") None) s) as (reply & s' & H & R & _).
  - constructor.
  - intros e He. discriminate He.
  - within_bounds.
  - within_bounds.
  - exists reply, s'. split; [exact H | exact R].
Defined.

(** A series of commands within range, in front of a store that answers
    and holds safe integers: the store ends with the document it had at the
    start, its list replaced by the result of the commands' specifications
    applied in order. *)
Theorem command_series (cs : list Command) :
  forall s,
    no_faults s -> coherent s -> safe_store s -> List.Forall in_range cs ->
    r_doc (remote (run_all cs s))
    = set_whitelist (r_doc (remote s))
        (List.fold_left (fun w c => spec_result c w) cs (whitelist (r_doc (remote s)))) /\
    no_faults (run_all cs s) /\ coherent (run_all cs s) /\ safe_store (run_all cs s).
Proof.
  induction cs as [|c cs IH]; intros s N C S R; simpl.
  - rewrite set_whitelist_same. now split.
  - inversion R as [|? ? Rc Rcs]; subst.
    destruct (handle_run_safe c s N C S Rc) as (reply & s1 & H & Rd & N1 & C1 & S1).
    rewrite H. simpl snd. destruct (IH s1 N1 C1 S1 Rcs) as (R' & N' & C' & S').
    split; [|now split]. rewrite R', Rd. reflexivity.
Qed.

Lemma command_series_witness :
  let s := boot remote123 0 [] in
  r_doc (remote (run_all [Add (js "9") None; BulkRemove (js "1,9,x") None;
                           Add (js "2") None] s))
  = set_whitelist doc123 [2; 3].
Proof.
  intros s.
  refine (proj1 (command_series
                   [Add (js "9") None; BulkRemove (js "1,9,x") None; Add (js "2") None]
                   s _ _ _ _)).
  - constructor.
  - intros e He. discriminate He.
  - within_bounds.
  - repeat apply List.Forall_cons; try apply List.Forall_nil; within_bounds.
Defined.

(** A read after a write sees the write: after any command within range,
    'check' of a safe id answers by the membership of the id in the list
    that the command was meant to produce, and 'count' answers its length.
    In particular an id is whitelisted after its Add and, on a list without
    duplicates, not whitelisted after its Remove. *)
Theorem reads_after_writes (c : Command) (s : State) (userId : jsstring) :
  no_faults s -> coherent s -> safe_store s ->
  in_range c -> in_range (Check userId) -> test_digits userId = true ->
  let w := whitelist (r_doc (remote s)) in
  let after := snd (handle c s) in
  fst (cmd_check userId after)
  = Val (CheckResult userId (includes (spec_result c w) (parseInt userId))) /\
  fst (cmd_count after) = Val (CountIs (length (spec_result c w))) /\
  (forall reason, c = Add userId reason ->
     fst (cmd_check userId after) = Val (CheckResult userId true)) /\
  (forall reason, c = Remove userId reason -> NoDup w ->
     fst (cmd_check userId after) = Val (CheckResult userId false)).
Proof.
  intros N C S Rc _ T w after.
  destruct (handle_run_safe c s N C S Rc) as (reply & s1 & H & R & N1 & C1 & _).
  assert (A : after = s1) by (unfold after; now rewrite H).
  destruct (reads_run s1 userId N1 C1) as [Hc Hn].
  rewrite A, (Hc T), Hn, R. simpl whitelist. fold w.
  split; [reflexivity|]. split; [reflexivity|]. split.
  - intros reason ->. simpl. rewrite T. unfold spec_add.
    destruct (includes w (parseInt userId)) eqn:I; [now rewrite I|].
    fold (push w (parseInt userId)).
    now rewrite includes_push, Z.eqb_refl, orb_true_r.
  - intros reason -> Hnd. simpl. rewrite T.
    pose proof (spec_remove_gone (parseInt userId) w Hnd) as G.
    apply includes_false in G. now rewrite G.
Qed.

Lemma reads_after_writes_witness :
  let s := boot remote123 0 [] in
  fst (cmd_check (js "5") (snd (handle (Add (js "5") None) s)))
  = Val (CheckResult (js "5") true).
Proof.
  intros s.
  destruct (reads_after_writes (Add (js "5") None) s (js "5")) as (_ & _ & H & _).
  - constructor.
  - intros e He. discriminate He.
  - within_bounds.
  - within_bounds.
  - within_bounds.
  - reflexivity.
  - exact (H None eq_refl).
Defined.

(** Add followed by Remove of the same safe id, both within range, on a
    list of safe integers that did not hold it, gives back the document
    that was in the store. *)
Theorem add_then_remove_restores
    (s : State) (userId : jsstring) (reason reason' : option jsstring) :
  no_faults s -> coherent s -> safe_store s ->
  in_range (Add userId reason) -> in_range (Remove userId reason') ->
  test_digits userId = true ->
  ~ In (parseInt userId) (whitelist (r_doc (remote s))) ->
  let added := snd (handle (Add userId reason) s) in
  let removed := snd (handle (Remove userId reason') added) in
  whitelist (r_doc (remote added))
  = whitelist (r_doc (remote s)) ++ [parseInt userId] /\
  r_doc (remote removed) = r_doc (remote s).
Proof.
  intros N C S Ra Rr T Hnot added removed.
  destruct (handle_run_safe (Add userId reason) s N C S Ra)
    as (r1 & s1 & H1 & R1 & N1 & C1 & S1).
  assert (A : added = s1) by (unfold added; now rewrite H1).
  destruct (handle_run_safe (Remove userId reason') s1 N1 C1 S1 Rr)
    as (r2 & s2 & H2 & R2 & _).
  assert (B : removed = s2) by (unfold removed; now rewrite A, H2).
  simpl spec_result in R1, R2. rewrite T in R1, R2.
  unfold spec_add in R1. apply includes_false in Hnot. rewrite Hnot in R1.
  apply includes_false in Hnot.
  rewrite B, R2, A, R1. simpl whitelist.
  rewrite (spec_remove_after_add _ _ Hnot). split; [reflexivity|].
  now rewrite set_whitelist_twice, set_whitelist_same.
Qed.

Lemma add_then_remove_restores_witness :
  let s := boot remote123 0 [] in
  r_doc (remote (snd (handle (Remove (js "8") None)
                        (snd (handle (Add (js "8") None) s)))))
  = r_doc (remote s).
Proof.
  intros s.
  refine (proj2 (add_then_remove_restores s (js "8") None None _ _ _ _ _ eq_refl _)).
  - constructor.
  - intros e He. discriminate He.
  - within_bounds.
  - within_bounds.
  - within_bounds.
  - vm_compute. intuition discriminate.
Defined.

(** ** Backup *)

Lemma replace_colon_dot_spec (iso : jsstring) :
  length (replace_colon_dot iso) = length iso /\
  (forall c, In c (replace_colon_dot iso) -> c <> 58%N /\ c <> 46%N) /\
  (forall i c, iso !! i = Some c -> c <> 58%N -> c <> 46%N ->
     replace_colon_dot iso !! i = Some c).
Proof.
  unfold replace_colon_dot. split; [apply List.length_map|]. split.
  - intros c Hc. apply List.in_map_iff in Hc. destruct Hc as (x & <- & _).
    destruct (x =? 58)%N eqn:E1; [simpl; split; discriminate|].
    destruct (x =? 46)%N eqn:E2; [simpl; split; discriminate|].
    simpl. apply N.eqb_neq in E1, E2. now split.
  - intros i c. revert i. induction iso as [|x iso IH]; intros i Hi H1 H2;
      [discriminate Hi|].
    destruct i as [|i]; simpl in *.
    + inversion Hi; subst. apply N.eqb_neq in H1, H2. now rewrite H1, H2.
    + now apply IH.
Qed.

(** 'backup', with a store that answers and a cache that mirrors it:
    the attached document is the document of the store, whole (list and
    other fields), with its count; nothing is written; the name of the file
    is the fixed prefix, the time stamp in which every ':' and '.' has become
    '-' (the other characters are kept in place), and ".json". *)
Theorem backup_exports_the_store (s : State) (iso : jsstring) :
  no_faults s -> coherent s ->
  exists s',
    cmd_backup iso s
    = (Val (BackupFile
              (js "meshlab-whitelist-backup-" ++ replace_colon_dot iso ++ js ".json")
              (r_doc (remote s)) (length (whitelist (r_doc (remote s))))), s') /\
    remote s' = remote s /\
    length (replace_colon_dot iso) = length iso /\
    (forall c, In c (replace_colon_dot iso) -> c <> 58%N /\ c <> 46%N) /\
    (forall i c, iso !! i = Some c -> c <> 58%N -> c <> 46%N ->
       replace_colon_dot iso !! i = Some c).
Proof.
  intros N C.
  destruct (fetch_keeps_coherent s N C) as (e & s1 & F & _ & Hd & R & _).
  exists s1. split.
  - unfold cmd_backup. run F. run (deref_ok _ _ _ Hd). reflexivity.
  - split; [exact R|]. apply replace_colon_dot_spec.
Qed.

Lemma backup_exports_the_store_witness :
  exists s',
    cmd_backup (js "2026-01-02T03:04:05.678Z") (boot remote123 0 [])
    = (Val (BackupFile (js "meshlab-whitelist-backup-2026-01-02T03-04-05-678Z.json")
              doc123 3), s').
Proof.
  destruct (backup_exports_the_store (boot remote123 0 []) (js "2026-01-02T03:04:05.678Z"))
    as (s' & H & _).
  - constructor.
  - intros e He. discriminate He.
  - exists s'. exact H.
Defined.
